(** * Firefly III AI Categorize: job queue, merchant cache and decision engine

    A shallow embedding of [src/services/queue.ts] (the [QueueService] and the
    [CacheService] it also contains), [src/services/llm.ts]
    ([LLMService.parseResponse]) and [src/worker.ts] ([analyzeHistory],
    [decideCategory], [processJob], the [poll] closure of [startWorker]),
    followed by the properties of these functions.

    Conventions of the embedding.
    - The two SQLite tables are explicit values: [jobs] is the list of its rows
      in rowid order, [merchant_categories] is a finite map keyed by the
      [UNIQUE] column [merchant_name].
    - [CURRENT_TIMESTAMP] is an argument [now] of every statement that uses
      it.  Timestamps are integers: SQLite compares the fixed-width text
      ['YYYY-MM-DD HH:MM:SS'] bytewise, which is the chronological order.
    - JavaScript numbers that hold row ids and counters are [Z].
    - A statement on the database does not throw, and the tables change only
      through the functions below: one process, one worker.
    - A collaborator is what it answers: each awaited call is recorded with
      its arguments and returns a value or throws.
    - Logging has no effect on any value and is left out. *)

From Stdlib Require Import ZArith List Bool Ascii String Lia.
From stdpp Require Import base option gmap strings list.
Import ListNotations.

Local Open Scope string_scope.
Local Open Scope list_scope.
Local Open Scope Z_scope.

(** ** JavaScript string primitives *)

(** [String.prototype.toLowerCase] and [String.prototype.trim] are library
    functions of the host; the embedding is parametric in them. *)
Class StringOps := {
  toLowerCase : string -> string;
  trim : string -> string
}.

(** Truthiness of a string: only the empty string is falsy. *)
Definition truthy (s : string) : bool := negb (String.eqb s EmptyString).

(** Truthiness of a [string | null] value. *)
Definition truthy_opt (o : option string) : bool :=
  match o with
  | Some s => truthy s
  | None => false
  end.

(** A [string | null | undefined] value under [if (x)]: the string itself
    when it is truthy. *)
Definition truthy_value (x : option string) : option string :=
  match x with
  | Some s => if truthy s then Some s else None
  | None => None
  end.

(** [s.includes(sub)]: [sub] occurs in [s] at some position. *)
Fixpoint includes (s sub : string) : bool :=
  if String.prefix sub s then true
  else match s with
       | EmptyString => false
       | String _ s' => includes s' sub
       end.

(** The character class of the pattern: the double quote (code 34) and the
    apostrophe (code 39). *)
Definition is_quote (c : ascii) : bool :=
  (Ascii.eqb c (ascii_of_nat 34) || Ascii.eqb c (ascii_of_nat 39))%bool.

(** The second alternative of the pattern: a quote that is the last
    character. *)
Fixpoint strip_trailing_quote (s : string) : string :=
  match s with
  | EmptyString => EmptyString
  | String c EmptyString => if is_quote c then EmptyString else s
  | String c s' => String c (strip_trailing_quote s')
  end.

(** The global replace of [parseResponse]: a quote at the start is removed
    (first alternative, anchored at the start), and a quote at the end of
    what follows it (second alternative, anchored at the end). *)
Definition strip_quotes (s : string) : string :=
  match s with
  | EmptyString => EmptyString
  | String c s' =>
      if is_quote c then strip_trailing_quote s' else strip_trailing_quote s
  end.

(** ** The job queue ([QueueService]) *)

Inductive Status := pending | processing | completed | failed.

#[global] Instance Status_eq_dec : EqDecision Status.
Proof. solve_decision. Defined.

Definition Status_eqb (a b : Status) : bool := bool_decide (a = b).

(** A row of the table [jobs].  The column [tags] holds the JSON text of a
    string array; it is represented by the array, [JSON.parse] being the
    inverse of [JSON.stringify] on string arrays. *)
Module JobRow.
Record t := mk {
  id : Z;
  transaction_id : string;
  merchant_name : string;
  description : string;
  amount : string;
  tags : list string;
  status : Status;
  attempts : Z;
  error : option string;
  created_at : Z;
  updated_at : Z
}.
End JobRow.

(** The interface [Job]. *)
Module Job.
Record t := mk {
  id : Z;
  transactionId : string;
  merchantName : string;
  description : string;
  amount : string;
  tags : list string;
  status : Status;
  attempts : Z;
  error : option string;
  createdAt : Z;
  updatedAt : Z
}.
End Job.

Module Queue.

(** The table, in rowid order. *)
Definition jobs := list JobRow.t.

Definition set_status (s : Status) (now : Z) (r : JobRow.t) : JobRow.t :=
  JobRow.mk (JobRow.id r) (JobRow.transaction_id r) (JobRow.merchant_name r)
    (JobRow.description r) (JobRow.amount r) (JobRow.tags r)
    s (JobRow.attempts r) (JobRow.error r) (JobRow.created_at r) now.

Definition set_status_error (s : Status) (e : string) (now : Z)
    (r : JobRow.t) : JobRow.t :=
  JobRow.mk (JobRow.id r) (JobRow.transaction_id r) (JobRow.merchant_name r)
    (JobRow.description r) (JobRow.amount r) (JobRow.tags r)
    s (JobRow.attempts r) (Some e) (JobRow.created_at r) now.

(** [SET status = 'processing', attempts = attempts + 1, updated_at = ...] *)
Definition claim_row (now : Z) (r : JobRow.t) : JobRow.t :=
  JobRow.mk (JobRow.id r) (JobRow.transaction_id r) (JobRow.merchant_name r)
    (JobRow.description r) (JobRow.amount r) (JobRow.tags r)
    processing (JobRow.attempts r + 1) (JobRow.error r)
    (JobRow.created_at r) now.

(** [UPDATE jobs SET ... WHERE id = ?] *)
Definition update_where_id (jobId : Z) (f : JobRow.t -> JobRow.t)
    (t : jobs) : jobs :=
  List.map (fun r => if JobRow.id r =? jobId then f r else r) t.

(** [UPDATE jobs SET ... WHERE status = ?] *)
Definition update_where_status (s : Status) (f : JobRow.t -> JobRow.t)
    (t : jobs) : jobs :=
  List.map (fun r => if Status_eqb (JobRow.status r) s then f r else r) t.

(** [SELECT ... FROM jobs WHERE id = ?], first row. *)
Definition select_by_id (jobId : Z) (t : jobs) : option JobRow.t :=
  List.find (fun r => JobRow.id r =? jobId) t.

(** [SELECT ... WHERE status = ?] *)
Definition select_where_status (s : Status) (t : jobs) : jobs :=
  List.filter (fun r => Status_eqb (JobRow.status r) s) t.

(** [ORDER BY created_at ASC LIMIT 1]: a row of least [created_at]; among
    equal timestamps the one of least rowid is taken. *)
Fixpoint order_by_created_at_limit_1 (rs : jobs) : option JobRow.t :=
  match rs with
  | [] => None
  | r :: rs' =>
      match order_by_created_at_limit_1 rs' with
      | None => Some r
      | Some r' =>
          if JobRow.created_at r <=? JobRow.created_at r'
          then Some r else Some r'
      end
  end.

(** [SELECT COUNT( * ) ... WHERE status = ?] *)
Definition count_where_status (s : Status) (t : jobs) : Z :=
  Z.of_nat (List.length (select_where_status s t)).

(** [init]: returns the new table and [reset.changes]. *)
Definition init (now : Z) (t : jobs) : jobs * Z :=
  (update_where_status processing (set_status pending now) t,
   count_where_status processing t).

(** The constructor opens the database and calls [init] once. *)
Definition new_QueueService (now : Z) (db : jobs) : jobs :=
  fst (init now db).

(** [AUTOINCREMENT]: one more than the largest rowid (no row is ever
    deleted), 1 for the empty table. *)
Definition next_rowid (t : jobs) : Z :=
  List.fold_right (fun r m => Z.max (JobRow.id r) m) 0 t + 1.

Definition enqueue (now : Z) (transactionId merchantName description
    amount : string) (tags : list string) (t : jobs) : Z * jobs :=
  let jobId := next_rowid t in
  (jobId,
   t ++ [JobRow.mk jobId transactionId merchantName description amount tags
           pending 0 None now now]).

Definition dequeue (now : Z) (t : jobs) : option Job.t * jobs :=
  match order_by_created_at_limit_1 (select_where_status pending t) with
  | None => (None, t)
  | Some row =>
      (Some (Job.mk (JobRow.id row) (JobRow.transaction_id row)
               (JobRow.merchant_name row) (JobRow.description row)
               (JobRow.amount row) (JobRow.tags row)
               (JobRow.status row) (JobRow.attempts row + 1)
               (JobRow.error row) (JobRow.created_at row)
               (JobRow.updated_at row)),
       update_where_id (JobRow.id row) (claim_row now) t)
  end.

Definition complete (now : Z) (jobId : Z) (t : jobs) : jobs :=
  update_where_id jobId (set_status completed now) t.

Definition fail (now : Z) (jobId : Z) (error : string) (maxRetries : Z)
    (t : jobs) : jobs :=
  let attempts :=
    match select_by_id jobId t with
    | Some job => JobRow.attempts job
    | None => 0
    end in
  if attempts <? maxRetries
  then update_where_id jobId (set_status_error pending error now) t
  else update_where_id jobId (set_status_error failed error now) t.

(** [fail(jobId, error)] with the default [maxRetries = 3]. *)
Definition fail_default (now : Z) (jobId : Z) (error : string)
    (t : jobs) : jobs :=
  fail now jobId error 3 t.

Definition getPendingCount (t : jobs) : Z :=
  count_where_status pending t.

(** The calls that reach the queue of one process: the webhook handler
    enqueues, the worker dequeues and resolves with the default retry
    bound, a restart runs the constructor. *)
Inductive op :=
| OpEnqueue (now : Z) (transactionId merchantName description
    amount : string) (tags : list string)
| OpDequeue (now : Z)
| OpComplete (now : Z) (jobId : Z)
| OpFail (now : Z) (jobId : Z) (error : string)
| OpRestart (now : Z).

Definition step (t : jobs) (o : op) : jobs :=
  match o with
  | OpEnqueue now tx m d a tags => snd (enqueue now tx m d a tags t)
  | OpDequeue now => snd (dequeue now t)
  | OpComplete now j => complete now j t
  | OpFail now j e => fail_default now j e t
  | OpRestart now => new_QueueService now t
  end.

Definition run (os : list op) (t : jobs) : jobs :=
  List.fold_left step os t.

(** The primary key: no two rows share an id. *)
Definition unique_ids (t : jobs) : Prop :=
  NoDup (List.map JobRow.id t).

End Queue.

(** ** The merchant cache ([CacheService]) *)

(** A row of the table [merchant_categories], without its key
    [merchant_name] and without the surrogate rowid, which no statement
    reads. *)
Module CacheRow.
Record t := mk {
  category_name : string;
  category_id : string;
  created_at : Z;
  updated_at : Z
}.
End CacheRow.

(** The interface [CachedCategory]. *)
Module CachedCategory.
Record t := mk {
  merchantName : string;
  categoryName : string;
  categoryId : string;
  createdAt : Z;
  updatedAt : Z
}.
End CachedCategory.

Module Cache.

Abbreviation merchant_categories := (gmap string CacheRow.t).

Definition get (merchantName : string) (c : merchant_categories)
    : option CachedCategory.t :=
  match c !! merchantName with
  | None => None
  | Some row =>
      Some (CachedCategory.mk merchantName (CacheRow.category_name row)
              (CacheRow.category_id row) (CacheRow.created_at row)
              (CacheRow.updated_at row))
  end.

(** [INSERT ... ON CONFLICT(merchant_name) DO UPDATE SET ...] *)
Definition set (now : Z) (merchantName categoryName categoryId : string)
    (c : merchant_categories) : merchant_categories :=
  match c !! merchantName with
  | None =>
      <[merchantName := CacheRow.mk categoryName categoryId now now]> c
  | Some row =>
      <[merchantName :=
          CacheRow.mk categoryName categoryId (CacheRow.created_at row) now]> c
  end.

(** [UPDATE merchant_categories SET ... WHERE merchant_name = ?] *)
Definition updateFromOverride (now : Z)
    (merchantName categoryName categoryId : string)
    (c : merchant_categories) : merchant_categories :=
  alter (fun row =>
           CacheRow.mk categoryName categoryId (CacheRow.created_at row) now)
    merchantName c.

(** [DELETE FROM merchant_categories WHERE merchant_name = ?] *)
Definition invalidate (merchantName : string) (c : merchant_categories)
    : merchant_categories :=
  delete merchantName c.

End Cache.

(** ** Data of the Firefly client ([src/services/firefly.ts]) *)

Module Category.
Record t := mk {
  id : string;
  name : string
}.
End Category.

Module TransactionInfo.
Record t := mk {
  id : string;
  description : string;
  destinationName : string;
  categoryId : option string;
  categoryName : option string;
  amount : string;
  date : string
}.
End TransactionInfo.

(** [categories.some((c) => c.id === categoryId)] *)
Definition category_id_exists (categories : list Category.t)
    (categoryId : string) : bool :=
  List.existsb (fun c => String.eqb (Category.id c) categoryId) categories.

(** ** The response parser of the classifier service ([LLMService]) *)

Inductive Confidence := high | medium | low.

Module LLMResponse.
Record t := mk {
  category : option string;
  confidence : Confidence;
  reasoning : string
}.
End LLMResponse.

(** The double quote character as a string. *)
Definition dquote : string := String (ascii_of_nat 34) EmptyString.

Module LLM.
Section WithStringOps.
Context `{StringOps}.

(** The predicate of the first [find]. *)
Definition exact_match (cleaned c : string) : bool :=
  String.eqb (toLowerCase c) (toLowerCase cleaned).

(** The predicate of the second [find]. *)
Definition partial_match (cleaned c : string) : bool :=
  (includes (toLowerCase c) (toLowerCase cleaned)
   || includes (toLowerCase cleaned) (toLowerCase c))%bool.

Definition parseResponse (content : string) (validCategories : list string)
    : LLMResponse.t :=
  let cleaned := strip_quotes (trim content) in
  let exactMatch := List.find (exact_match cleaned) validCategories in
  match truthy_value exactMatch with
  | Some exactMatch =>
      LLMResponse.mk (Some exactMatch) high "Exact match from LLM"
  | None =>
      let partialMatch := List.find (partial_match cleaned) validCategories in
      match truthy_value partialMatch with
      | Some partialMatch =>
          LLMResponse.mk (Some partialMatch) medium
            ("Partial match: " ++ dquote ++ cleaned ++ dquote ++ " → "
               ++ dquote ++ partialMatch ++ dquote)%string
      | None =>
          LLMResponse.mk None low
            ("Invalid response: " ++ dquote ++ cleaned ++ dquote)%string
      end
  end.

End WithStringOps.
End LLM.

(** ** The worker ([src/worker.ts]) *)

Inductive CategoryDecision :=
| from_cache (categoryId categoryName : string)
| firefly_override (categoryId categoryName : string)
| llm (categoryId categoryName : string)
| skip (reason : string).

(** [decision.source === "skip"] *)
Definition is_skip (d : CategoryDecision) : bool :=
  match d with skip _ => true | _ => false end.

(** The part of [config] the worker reads. *)
Record Config := {
  firefly_historyLimit : Z;
  firefly_tag : string
}.

(** A call either returns or throws an [Error] with a message. *)
Inductive Res (A : Type) :=
| Ok (a : A)
| Throw (message : string).
Arguments Ok {A} a.
Arguments Throw {A} message.

(** The calls that leave the process, with their arguments. *)
Inductive Call :=
| CallGetCategories
| CallGetRecentTransactionsByMerchant (merchantName : string) (limit : Z)
| CallSearchMerchant (merchantName : string)
| CallChatSend (categoryNames : list string)
    (destinationName description amount : string)
    (recentTransactions : list TransactionInfo.t)
    (merchantContext : option string)
| CallUpdateTransaction (transactionId categoryId : string)
    (tags : list string).

Definition is_update_call (c : Call) : bool :=
  match c with CallUpdateTransaction _ _ _ => true | _ => false end.

(** What the outside answers while one job is processed, one field per call
    site: [getCategories] (its own time-limited memo included), the history
    fetch of step 2, [searchMerchant] (which catches every error), the
    history fetch of step 3, the text of the model's reply, and the
    transaction update. *)
Record Collaborators := {
  getCategories : Res (list Category.t);
  getRecentTransactionsByMerchant_step2 : Res (list TransactionInfo.t);
  searchMerchant : option string;
  getRecentTransactionsByMerchant_step3 : Res (list TransactionInfo.t);
  chat_send : Res string;
  updateTransaction : Res unit
}.

(** The state the worker acts on: both tables and the calls made so far,
    oldest first. *)
Record World := {
  queue : Queue.jobs;
  cache : Cache.merchant_categories;
  calls : list Call
}.

Definition with_queue (q : Queue.jobs) (w : World) : World :=
  {| queue := q; cache := cache w; calls := calls w |}.

Definition with_cache (c : Cache.merchant_categories) (w : World) : World :=
  {| queue := queue w; cache := c; calls := calls w |}.

Definition log_call (c : Call) (w : World) : World :=
  {| queue := queue w; cache := cache w; calls := calls w ++ [c] |}.

(** Computations that read and write the world and may throw; what was
    written before a throw stays written. *)
Definition M (A : Type) : Type := World -> Res A * World.

Definition ret {A} (a : A) : M A := fun w => (Ok a, w).

Definition bind {A B} (m : M A) (k : A -> M B) : M B :=
  fun w =>
    match m w with
    | (Ok a, w') => k a w'
    | (Throw e, w') => (Throw e, w')
    end.

Notation "'let*' x ':=' m 'in' k" := (bind m (fun x => k))
  (at level 10, x name, m at level 100, k at level 200).

(** An awaited call of a collaborator: it is recorded, then answers. *)
Definition call {A} (c : Call) (answer : Res A) : M A :=
  fun w => (answer, log_call c w).

(** A synchronous statement on the cache. *)
Definition on_cache (f : Cache.merchant_categories -> Cache.merchant_categories)
    : M unit :=
  fun w => (Ok tt, with_cache (f (cache w)) w).

Definition cache_get (merchantName : string) : M (option CachedCategory.t) :=
  fun w => (Ok (Cache.get merchantName (cache w)), w).

Module Worker.
Section WithStringOps.
Context `{StringOps}.
Variable config : Config.
Variable env : Collaborators.

Definition POLL_INTERVAL_MS : Z := 1000.

(** [llmService.categorize] *)
Definition categorize (categories : list Category.t)
    (destinationName description amount : string)
    (recentTransactions : list TransactionInfo.t)
    (merchantContext : option string) : M LLMResponse.t :=
  let categoryNames := List.map Category.name categories in
  let* content :=
    call (CallChatSend categoryNames destinationName description amount
            recentTransactions merchantContext) (chat_send env) in
  ret (LLM.parseResponse content categoryNames).

(** [fireflyService.updateTransactionCategory] *)
Definition updateTransactionCategory (transactionId categoryId : string)
    (existingTags : list string) : M unit :=
  let tags :=
    if List.existsb (String.eqb (firefly_tag config)) existingTags
    then existingTags
    else existingTags ++ [firefly_tag config] in
  call (CallUpdateTransaction transactionId categoryId tags)
    (updateTransaction env).

(** The filter of [analyzeHistory]: both fields are truthy. *)
Definition is_categorized (tx : TransactionInfo.t) : bool :=
  (truthy_opt (TransactionInfo.categoryId tx)
   && truthy_opt (TransactionInfo.categoryName tx))%bool.

(** [tx.categoryName === cached.categoryName] *)
Definition name_is (categoryName : string) (tx : TransactionInfo.t) : bool :=
  match TransactionInfo.categoryName tx with
  | Some n => String.eqb n categoryName
  | None => false
  end.

(** The value of a field under the non-null assertion; the filter leaves
    only transactions in which it is a string. *)
Definition assert_non_null (o : option string) : string :=
  match o with
  | Some s => s
  | None => EmptyString
  end.

Definition analyzeHistory (cached : CachedCategory.t)
    (recentTxns : list TransactionInfo.t) : CategoryDecision :=
  let categorized := List.filter is_categorized recentTxns in
  match categorized with
  | [] =>
      from_cache (CachedCategory.categoryId cached)
        (CachedCategory.categoryName cached)
  | mostRecent :: _ =>
      let allMatchCache :=
        List.forallb (name_is (CachedCategory.categoryName cached))
          categorized in
      if allMatchCache then
        from_cache (CachedCategory.categoryId cached)
          (CachedCategory.categoryName cached)
      else
        let allDiffer :=
          List.forallb
            (fun tx => negb (name_is (CachedCategory.categoryName cached) tx))
            categorized in
        if allDiffer then
          firefly_override
            (assert_non_null (TransactionInfo.categoryId mostRecent))
            (assert_non_null (TransactionInfo.categoryName mostRecent))
        else
          from_cache (CachedCategory.categoryId cached)
            (CachedCategory.categoryName cached)
  end.

(** Step 3 of [decideCategory], from the comment
    [Not in cache or cache invalidated - call LLM] to the end of the
    function; the three paths that fall through to it share it. *)
Definition decideCategory_llm (now : Z) (categories : list Category.t)
    (merchantName description amount : string) : M CategoryDecision :=
  let* merchantContext :=
    call (CallSearchMerchant merchantName) (Ok (searchMerchant env)) in
  let* recentTxns :=
    call (CallGetRecentTransactionsByMerchant merchantName
            (firefly_historyLimit config))
      (getRecentTransactionsByMerchant_step3 env) in
  let* llmResult :=
    categorize categories merchantName description amount recentTxns
      merchantContext in
  match truthy_value (LLMResponse.category llmResult) with
  | None => ret (skip "LLM could not determine category")
  | Some name =>
      match List.find (fun c => String.eqb (Category.name c) name)
              categories with
      | None =>
          ret (skip ("Category " ++ dquote ++ name ++ dquote
                       ++ " not found")%string)
      | Some category =>
          let* _ :=
            on_cache (Cache.set now merchantName (Category.name category)
                        (Category.id category)) in
          ret (llm (Category.id category) (Category.name category))
      end
  end.

Definition decideCategory (now : Z) (merchantName description amount : string)
    : M CategoryDecision :=
  let* categories := call CallGetCategories (getCategories env) in
  if (Z.of_nat (List.length categories) =? 0)%Z then
    ret (skip "No categories configured in Firefly")
  else
    let* cached := cache_get merchantName in
    match cached with
    | Some cached =>
        let categoryExists :=
          category_id_exists categories (CachedCategory.categoryId cached) in
        if negb categoryExists then
          let* _ := on_cache (Cache.invalidate merchantName) in
          decideCategory_llm now categories merchantName description amount
        else
          let* recentTxns :=
            call (CallGetRecentTransactionsByMerchant merchantName
                    (firefly_historyLimit config))
              (getRecentTransactionsByMerchant_step2 env) in
          let decision := analyzeHistory cached recentTxns in
          match decision with
          | firefly_override categoryId categoryName =>
              let overrideExists :=
                category_id_exists categories categoryId in
              if overrideExists then
                let* _ :=
                  on_cache (Cache.updateFromOverride now merchantName
                              categoryName categoryId) in
                ret decision
              else
                decideCategory_llm now categories merchantName description
                  amount
          | _ => ret decision
          end
    | None =>
        decideCategory_llm now categories merchantName description amount
    end.

(** [decision.categoryId] of a decision that is not [skip]. *)
Definition decision_categoryId (d : CategoryDecision) : string :=
  match d with
  | from_cache i _ | firefly_override i _ | llm i _ => i
  | skip _ => EmptyString
  end.

Definition processJob (now : Z) (job : Job.t) : M unit :=
  let* decision :=
    decideCategory now (Job.merchantName job) (Job.description job)
      (Job.amount job) in
  if is_skip decision then ret tt
  else
    let tags := Job.tags job in
    updateTransactionCategory (Job.transactionId job)
      (decision_categoryId decision) tags.

(** One run of the closure [poll] of [startWorker]; the result is the delay
    it passes to [setTimeout].  [now_claim], [now_cache] and [now_resolve]
    are the clock readings of the statements on the queue at the claim, on
    the cache during the decision, and on the queue at the resolution. *)
Definition poll (now_claim now_cache now_resolve : Z) (w : World)
    : Z * World :=
  match Queue.dequeue now_claim (queue w) with
  | (Some job, q) =>
      match processJob now_cache job (with_queue q w) with
      | (Ok _, w') =>
          (0, with_queue (Queue.complete now_resolve (Job.id job) (queue w')) w')
      | (Throw error, w') =>
          (0, with_queue
                (Queue.fail_default now_resolve (Job.id job) error (queue w'))
                w')
      end
  | (None, q) => (POLL_INTERVAL_MS, with_queue q w)
  end.

End WithStringOps.
End Worker.

(** ** A concrete instance for examples: 7-bit ASCII text *)

Definition ascii_lower (c : ascii) : ascii :=
  let n := nat_of_ascii c in
  if ((65 <=? n) && (n <=? 90))%nat then ascii_of_nat (n + 32) else c.

Fixpoint ascii_toLowerCase (s : string) : string :=
  match s with
  | EmptyString => EmptyString
  | String c s' => String (ascii_lower c) (ascii_toLowerCase s')
  end.

(** Space, tab, line feed, vertical tab, form feed, carriage return. *)
Definition is_space (c : ascii) : bool :=
  let n := nat_of_ascii c in
  ((n =? 32) || ((9 <=? n) && (n <=? 13)))%nat.

Fixpoint trim_start (s : string) : string :=
  match s with
  | EmptyString => EmptyString
  | String c s' => if is_space c then trim_start s' else s
  end.

Fixpoint trim_end (s : string) : string :=
  match s with
  | EmptyString => EmptyString
  | String c s' =>
      match trim_end s' with
      | EmptyString => if is_space c then EmptyString else String c EmptyString
      | r => String c r
      end
  end.

#[global] Instance ascii_StringOps : StringOps := {
  toLowerCase := ascii_toLowerCase;
  trim := fun s => trim_end (trim_start s)
}.

(** ** Vocabulary of the statements *)

(** The job [jobId] has used up the default retry bound and is in a final
    status. *)
Definition exhausted (jobId : Z) (t : Queue.jobs) : Prop :=
  exists r,
    Queue.select_by_id jobId t = Some r /\ 3 <= JobRow.attempts r /\
    (JobRow.status r = failed \/ JobRow.status r = completed).

(** The pending jobs other than [jobId]. *)
Definition pending_other_than (jobId : Z) (t : Queue.jobs) : Queue.jobs :=
  List.filter
    (fun r => (Status_eqb (JobRow.status r) pending
               && negb (JobRow.id r =? jobId))%bool) t.

(** A table with one job that a worker claimed once and then failed for
    good, and the same table with that job pending and unclaimed. *)
Definition sample_row (i : Z) (s : Status) (n : Z) (created : Z)
    : JobRow.t :=
  JobRow.mk i "tx" "Cafe" "latte" "4.50" [] s n None created created.

(** The object [dequeue] returns for job 1 of the samples at its [n]-th
    claim, [e] being the error of the failure before and [updated] the time
    of the last update. *)
Definition sample_job (n : Z) (e : option string) (updated : Z) : Job.t :=
  Job.mk 1 "tx" "Cafe" "latte" "4.50" [] pending n e 10 updated.

Definition sample_queue : Queue.jobs :=
  [sample_row 1 pending 0 10; sample_row 2 pending 0 11].

(** The first, second and third claim of job 1 of [sample_queue], each
    followed by its failure. *)
Definition sample_round (now : Z) (e : string) (t : Queue.jobs)
    : Queue.jobs :=
  Queue.fail_default (now + 1) 1 e (snd (Queue.dequeue now t)).





(** The calls of the model-assisted path made before the reply is parsed. *)
Definition llm_path_calls (config : Config) (env : Collaborators)
    (categories : list Category.t) (merchantName description amount : string)
    (recentTxns : list TransactionInfo.t) : list Call :=
  [CallSearchMerchant merchantName;
   CallGetRecentTransactionsByMerchant merchantName
     (firefly_historyLimit config);
   CallChatSend (List.map Category.name categories) merchantName description
     amount recentTxns (searchMerchant env)].

Definition log_calls (cs : list Call) (w : World) : World :=
  {| queue := queue w; cache := cache w; calls := calls w ++ cs |}.

(** A decision of the model-assisted path: [llm] or [skip]. *)
Definition is_model_path_decision (d : CategoryDecision) : bool :=
  match d with
  | llm _ _ | skip _ => true
  | from_cache _ _ | firefly_override _ _ => false
  end.

(** Sample data. *)
Definition sample_config : Config :=
  {| firefly_historyLimit := 5; firefly_tag := "AI categorized" |}.

Definition sample_categories : list Category.t :=
  [Category.mk "1" "Groceries"; Category.mk "2" "Dining"].

Definition sample_tx (categoryId categoryName : option string)
    : TransactionInfo.t :=
  TransactionInfo.mk "t" "latte" "Cafe" categoryId categoryName "4.50"
    "2024-01-01".

Definition sample_cached : CachedCategory.t :=
  CachedCategory.mk "Cafe" "Groceries" "1" 10 10.

(** The outside answers with the given categories and reply, an empty
    history, no search context, and accepts the update. *)
Definition sample_env (categories : list Category.t) (reply : string)
    : Collaborators :=
  {| getCategories := Ok categories;
     getRecentTransactionsByMerchant_step2 := Ok [];
     searchMerchant := None;
     getRecentTransactionsByMerchant_step3 := Ok [];
     chat_send := Ok reply;
     updateTransaction := Ok tt |}.

Definition sample_world (q : Queue.jobs) (c : Cache.merchant_categories)
    : World :=
  {| queue := q; cache := c; calls := [] |}.

(** [w'] is [w] after some calls, none of them a transaction update, and
    with the queue untouched. *)
Definition extends_without_update (w w' : World) : Prop :=
  queue w' = queue w /\
  exists cs, calls w' = calls w ++ cs /\
             List.forallb (fun c => negb (is_update_call c)) cs = true.

(** As [sample_env], with the given history at step 2. *)
Definition sample_env_with_history (categories : list Category.t)
    (reply : string) (recentTxns : list TransactionInfo.t) : Collaborators :=
  {| getCategories := Ok categories;
     getRecentTransactionsByMerchant_step2 := Ok recentTxns;
     searchMerchant := None;
     getRecentTransactionsByMerchant_step3 := Ok [];
     chat_send := Ok reply;
     updateTransaction := Ok tt |}.

Definition sample_cache : Cache.merchant_categories :=
  <["Cafe" := CacheRow.mk "Groceries" "1" 10 10]> ∅.

(** ** The Firefly client ([FireflyService]) *)

Module Firefly.

(** An element of the category listing: [cat.id] and [cat.attributes?.name],
    which may be missing. *)
Record ApiCategory := {
  cat_id : string;
  cat_name : option string
}.

(** What [listCategory] answers: [response.error], or [response.data?.data],
    which may be missing. *)
Inductive ListCategoryResponse :=
| ListCategoryError
| ListCategoryData (data : option (list ApiCategory)).

(** The fields [categoryCache] and [categoryCacheTime] of the service. *)
Record State := {
  categoryCache : option (list Category.t);
  categoryCacheTime : Z
}.

Definition initial : State :=
  {| categoryCache := None; categoryCacheTime := 0 |}.

(** What one call of a method gives: its result, the fields afterwards, and
    whether the API was called. *)
Record Outcome (A : Type) := {
  result : Res A;
  state : State;
  fetched : bool
}.
Arguments result {A} o.
Arguments state {A} o.
Arguments fetched {A} o.

(** The mapping of the listing: a missing name becomes the empty string. *)
Definition to_category (cat : ApiCategory) : Category.t :=
  Category.mk (cat_id cat)
    (match cat_name cat with Some n => n | None => EmptyString end).

(** The rest of [getCategories] once the memo is not used: the listing is
    fetched; an error throws and writes nothing, a listing is mapped and
    stored with the time. *)
Definition fetch_categories (now : Z) (response : ListCategoryResponse)
    (s : State) : Outcome (list Category.t) :=
  match response with
  | ListCategoryError =>
      {| result := Throw "Failed to fetch categories"; state := s;
         fetched := true |}
  | ListCategoryData data =>
      let categories :=
        match data with
        | Some l => List.map to_category l
        | None => []
        end in
      {| result := Ok categories;
         state := {| categoryCache := Some categories;
                     categoryCacheTime := now |};
         fetched := true |}
  end.

(** [getCategories]: [categoryCacheTtl] is the configured number of
    seconds, [now] is [Date.now()], [response] is what the API answers if it
    is asked.  An array, even empty, is truthy. *)
Definition getCategories (categoryCacheTtl : Z) (now : Z)
    (response : ListCategoryResponse) (s : State)
    : Outcome (list Category.t) :=
  let ttlMs := categoryCacheTtl * 1000 in
  match categoryCache s with
  | Some cached =>
      if now - categoryCacheTime s <? ttlMs then
        {| result := Ok cached; state := s; fetched := false |}
      else fetch_categories now response s
  | None => fetch_categories now response s
  end.

Definition invalidateCategoryCache (s : State) : State :=
  {| categoryCache := None; categoryCacheTime := 0 |}.

(** A split of a transaction group as the search returns it; every field
    may be missing. *)
Record ApiSplit := {
  split_description : option string;
  split_destination_name : option string;
  split_category_id : option string;
  split_category_name : option string;
  split_amount : option string;
  split_date : option string
}.

(** A transaction group: [txGroup.id] and [txGroup.attributes?.transactions],
    which may be missing. *)
Record ApiGroup := {
  group_id : string;
  group_transactions : option (list ApiSplit)
}.

Inductive SearchTransactionsResponse :=
| SearchTransactionsError
| SearchTransactionsData (data : option (list ApiGroup)).

(** [x ?? d] for a string. *)
Definition or_default (x : option string) (d : string) : string :=
  match x with Some v => v | None => d end.

(** The body of the loop of [getRecentTransactionsByMerchant] for one
    group: its first split, if it has one. *)
Definition to_transaction (txGroup : ApiGroup) : option TransactionInfo.t :=
  match group_transactions txGroup with
  | Some (tx :: _) =>
      Some (TransactionInfo.mk (group_id txGroup)
              (or_default (split_description tx) EmptyString)
              (or_default (split_destination_name tx) EmptyString)
              (split_category_id tx)
              (split_category_name tx)
              (or_default (split_amount tx) "0")
              (or_default (split_date tx) EmptyString))
  | _ => None
  end.

Fixpoint push_transactions (groups : list ApiGroup)
    : list TransactionInfo.t :=
  match groups with
  | [] => []
  | txGroup :: rest =>
      match to_transaction txGroup with
      | Some t => t :: push_transactions rest
      | None => push_transactions rest
      end
  end.

Definition getRecentTransactionsByMerchant
    (response : SearchTransactionsResponse) : Res (list TransactionInfo.t) :=
  match response with
  | SearchTransactionsError => Throw "Failed to search transactions"
  | SearchTransactionsData data =>
      Ok (push_transactions
            (match data with Some l => l | None => [] end))
  end.

(** The tags [updateTransactionCategory] sends. *)
Definition tags_to_send (tag : string) (existingTags : list string)
    : list string :=
  if List.existsb (String.eqb tag) existingTags
  then existingTags
  else existingTags ++ [tag].

End Firefly.

(** ** The merchant search ([SearXNGService]) *)

Module SearXNG.

Record SearXNGResult := {
  title : string;
  content : string;
  url : string
}.

(** What happens to the request: [fetch] or [response.json()] throws (the
    abort of the timeout included), the status is not ok, or the body is
    parsed, with [data.results] possibly missing. *)
Inductive FetchOutcome :=
| FetchThrows
| FetchNotOk (status : Z)
| FetchJson (results : option (list SearXNGResult)).

(** [lines.join(sep)] *)
Fixpoint join (sep : string) (lines : list string) : string :=
  match lines with
  | [] => EmptyString
  | [l] => l
  | l :: rest => (l ++ sep ++ join sep rest)%string
  end.

(** The line feed as a string. *)
Definition newline : string := String (ascii_of_nat 10) EmptyString.

(** [searchMerchant]: [searxng_url] is [config.searxng.url]; the second
    component tells whether a request was sent. *)
Definition searchMerchant (searxng_url : option string)
    (outcome : FetchOutcome) : option string * bool :=
  match searxng_url with
  | None => (None, false)
  | Some _ =>
      match outcome with
      | FetchThrows => (None, true)
      | FetchNotOk _ => (None, true)
      | FetchJson data =>
          let results :=
            match data with
            | Some l => List.firstn 3 l
            | None => []
            end in
          if (Z.of_nat (List.length results) =? 0)%Z then (None, true)
          else
            let summary :=
              String.substring 0 500
                (join newline
                   (List.map (fun r => (title r ++ ": " ++ content r)%string)
                      results)) in
            (Some summary, true)
      end
  end.

End SearXNG.

(** ** The webhook handler ([handleWebhook], [validatePayload]) *)

Module Webhook.

(** A transaction of the payload, typed as the interface [WebhookPayload]
    types it.  The body is cast to the interface and not checked against it,
    and [validatePayload] looks at neither [description], [amount] nor
    [tags]: a body may lack them, and then the handler reads [undefined];
    [None] stands for such a missing field.  [category_id] is [None] for
    the value [null]. *)
Record Transaction := {
  transaction_journal_id : string;
  type : string;
  description : option string;
  destination_name : string;
  category_id : option string;
  category_name : option string;
  amount : option string;
  tags : option (list string)
}.

(** [payload.content]; the handler reads [id] and [transactions] through
    optional chaining, so both may be missing. *)
Record Content := {
  id : option string;
  transactions : option (list Transaction)
}.

Record Payload := {
  trigger : option string;
  response : option string;
  content : option Content
}.

Inductive Validation :=
| valid
| invalid (reason : string).

(** [x !== s] for a value that may be missing. *)
Definition differs (x : option string) (s : string) : bool :=
  match x with
  | Some v => negb (String.eqb v s)
  | None => true
  end.

Definition validatePayload (payload : option Payload) : Validation :=
  if differs (match payload with Some p => trigger p | None => None end)
       "STORE_TRANSACTION"
  then invalid "Trigger is not STORE_TRANSACTION"
  else if differs (match payload with Some p => response p | None => None end)
            "TRANSACTIONS"
  then invalid "Response is not TRANSACTIONS"
  else
    let content_ :=
      match payload with Some p => content p | None => None end in
    if negb (truthy_opt
               (match content_ with Some c => id c | None => None end))
    then invalid "Missing content.id"
    else
      match match content_ with
            | Some c => transactions c
            | None => None
            end with
      | None | Some [] => invalid "No transactions in payload"
      | Some (tx :: _) =>
          if negb (String.eqb (type tx) "withdrawal")
          then invalid "Transaction type is not withdrawal"
          else
            match category_id tx with
            | Some _ => invalid "Transaction already has a category"
            | None =>
                if negb (truthy (destination_name tx))
                then invalid "Missing destination_name"
                else valid
            end
      end.




(** A payload that is a stored, uncategorized withdrawal with a content id
    and a destination: [contentId] is the id of its content, [tx] its first
    transaction. *)
Definition well_formed (payload : option Payload) (contentId : string)
    (tx : Transaction) : Prop :=
  exists p c rest,
    payload = Some p /\
    trigger p = Some "STORE_TRANSACTION" /\
    response p = Some "TRANSACTIONS" /\
    content p = Some c /\
    id c = Some contentId /\ contentId <> EmptyString /\
    transactions c = Some (tx :: rest) /\
    type tx = "withdrawal" /\
    category_id tx = None /\
    destination_name tx <> EmptyString.

End Webhook.

(** The columns of a job that describe the transaction. *)
Definition job_payload (r : JobRow.t)
    : string * string * string * string * list string * Z :=
  (JobRow.transaction_id r, JobRow.merchant_name r, JobRow.description r,
   JobRow.amount r, JobRow.tags r, JobRow.created_at r).

(** The category name a decision carries. *)
Definition decision_categoryName (d : CategoryDecision) : string :=
  match d with
  | from_cache _ n | firefly_override _ n | llm _ n => n
  | skip _ => EmptyString
  end.

(** The number of [dequeue] calls in a sequence of calls. *)
Definition dequeue_calls (os : list Queue.op) : Z :=
  Z.of_nat
    (List.length
       (List.filter
          (fun o => match o with Queue.OpDequeue _ => true | _ => false end)
          os)).

(** * Properties *)

(** ** Statements on the table [jobs] *)

Section QueueLemmas.
Import Queue.

Lemma Status_eqb_true a b : Status_eqb a b = true <-> a = b.
Proof. unfold Status_eqb. apply bool_decide_eq_true. Qed.

Lemma Status_eqb_false a b : Status_eqb a b = false <-> a <> b.
Proof. unfold Status_eqb. apply bool_decide_eq_false. Qed.

Lemma set_status_id s now r : JobRow.id (set_status s now r) = JobRow.id r.
Proof. reflexivity. Qed.

Lemma set_status_error_id s e now r :
  JobRow.id (set_status_error s e now r) = JobRow.id r.
Proof. reflexivity. Qed.

Lemma claim_row_id now r : JobRow.id (claim_row now r) = JobRow.id r.
Proof. reflexivity. Qed.

(** An update that keeps the key keeps the column of keys. *)
Lemma map_ids_preserved (g : JobRow.t -> JobRow.t) (t : jobs) :
  (forall r, JobRow.id (g r) = JobRow.id r) ->
  List.map JobRow.id (List.map g t) = List.map JobRow.id t.
Proof.
  intros Hg. rewrite List.map_map. apply List.map_ext. exact Hg.
Qed.

Lemma select_by_id_map (g : JobRow.t -> JobRow.t) (t : jobs) (j : Z) :
  (forall r, JobRow.id (g r) = JobRow.id r) ->
  select_by_id j (List.map g t) = option_map g (select_by_id j t).
Proof.
  intros Hg. unfold select_by_id.
  induction t as [|r t IH]; simpl; [reflexivity|].
  rewrite Hg. destruct (JobRow.id r =? j); [reflexivity | exact IH].
Qed.

Lemma select_by_id_update (f : JobRow.t -> JobRow.t) (t : jobs) (j k : Z) :
  (forall r, JobRow.id (f r) = JobRow.id r) ->
  select_by_id k (update_where_id j f t) =
  if k =? j then option_map f (select_by_id k t) else select_by_id k t.
Proof.
  intros Hf. unfold update_where_id.
  rewrite select_by_id_map.
  - destruct (select_by_id k t) as [r|] eqn:Hsel; simpl.
    + apply List.find_some in Hsel as [_ Hid].
      apply Z.eqb_eq in Hid. rewrite Hid. destruct (k =? j); reflexivity.
    + destruct (k =? j); reflexivity.
  - intros r. destruct (JobRow.id r =? j); [apply Hf | reflexivity].
Qed.

Lemma select_by_id_some j t r :
  select_by_id j t = Some r -> In r t /\ JobRow.id r = j.
Proof.
  intros Hsel. apply List.find_some in Hsel as [Hin Hid].
  split; [exact Hin | now apply Z.eqb_eq].
Qed.

Lemma select_by_id_none j t :
  select_by_id j t = None -> forall r, In r t -> JobRow.id r <> j.
Proof.
  intros Hsel r Hin Hid.
  apply (List.find_none _ _ Hsel) in Hin. apply Z.eqb_neq in Hin. auto.
Qed.

(** Under the primary key a row is the one its id selects. *)
Lemma unique_select t r :
  unique_ids t -> In r t -> select_by_id (JobRow.id r) t = Some r.
Proof.
  unfold unique_ids, select_by_id.
  induction t as [|r0 t IH]; simpl; intros Hnd Hin; [contradiction|].
  apply NoDup_cons in Hnd as [Hnotin Hnd].
  destruct Hin as [-> | Hin].
  - now rewrite Z.eqb_refl.
  - destruct (JobRow.id r0 =? JobRow.id r) eqn:E.
    + apply Z.eqb_eq in E. exfalso. apply Hnotin.
      rewrite list_elem_of_In, E. now apply List.in_map.
    + now apply IH.
Qed.

Lemma update_where_id_none j f t :
  select_by_id j t = None -> update_where_id j f t = t.
Proof.
  intros Hsel. unfold update_where_id.
  rewrite <- (List.map_id t) at 2. apply List.map_ext_in.
  intros r Hin. pose proof (select_by_id_none _ _ Hsel r Hin) as Hne.
  apply Z.eqb_neq in Hne. now rewrite Hne.
Qed.

Lemma oldest_spec rs r :
  order_by_created_at_limit_1 rs = Some r ->
  In r rs /\
  forall r', In r' rs -> JobRow.created_at r <= JobRow.created_at r'.
Proof.
  revert r. induction rs as [|r0 rs IH]; simpl; intros r Hr; [discriminate|].
  destruct (order_by_created_at_limit_1 rs) as [m|] eqn:Hm.
  - destruct (IH m eq_refl) as [Hin Hle].
    destruct (JobRow.created_at r0 <=? JobRow.created_at m) eqn:E;
      inversion Hr; subst r.
    + apply Z.leb_le in E. split; [now left|].
      intros r' [<- | Hr']; [lia | specialize (Hle r' Hr'); lia].
    + apply Z.leb_gt in E. split; [now right|].
      intros r' [<- | Hr']; [lia | now apply Hle].
  - inversion Hr; subst r. destruct rs as [|r1 rs].
    + split; [now left|]. intros r' [<- | []]. lia.
    + simpl in Hm. destruct (order_by_created_at_limit_1 rs) as [m|];
        [destruct (_ <=? _)|]; discriminate.
Qed.

Lemma oldest_none rs : order_by_created_at_limit_1 rs = None -> rs = [].
Proof.
  destruct rs as [|r rs]; [reflexivity|]. simpl.
  destruct (order_by_created_at_limit_1 rs) as [m|];
    [destruct (_ <=? _)|]; discriminate.
Qed.

(** What [dequeue] does when it returns a job: the row it read is a pending
    row of least [created_at]; the returned object copies that row except
    for [attempts], which is one more; the table is updated at that id. *)
Lemma dequeue_some now t job t' :
  dequeue now t = (Some job, t') ->
  exists row,
    In row t /\ JobRow.status row = pending /\
    (forall r', In r' t -> JobRow.status r' = pending ->
                JobRow.created_at row <= JobRow.created_at r') /\
    job = Job.mk (JobRow.id row) (JobRow.transaction_id row)
            (JobRow.merchant_name row) (JobRow.description row)
            (JobRow.amount row) (JobRow.tags row) (JobRow.status row)
            (JobRow.attempts row + 1) (JobRow.error row)
            (JobRow.created_at row) (JobRow.updated_at row) /\
    t' = update_where_id (JobRow.id row) (claim_row now) t.
Proof.
  unfold dequeue, select_where_status. intros Hd.
  destruct (order_by_created_at_limit_1 _) as [row|] eqn:Hrow;
    [|discriminate].
  inversion Hd; subst; clear Hd.
  apply oldest_spec in Hrow as [Hin Hle].
  apply List.filter_In in Hin as [Hin Hst]. apply Status_eqb_true in Hst.
  exists row. repeat split; auto.
  intros r' Hr' Hst'. apply Hle. apply List.filter_In.
  split; [exact Hr' | now apply Status_eqb_true].
Qed.

Lemma dequeue_none now t t' :
  dequeue now t = (None, t') ->
  t' = t /\ forall r, In r t -> JobRow.status r <> pending.
Proof.
  unfold dequeue, select_where_status. intros Hd.
  destruct (order_by_created_at_limit_1 _) as [row|] eqn:Hrow;
    [discriminate|].
  injection Hd as Ht. subst t'. split; [reflexivity|].
  apply oldest_none in Hrow. intros r Hin Hst.
  assert (In r (List.filter
                  (fun r => Status_eqb (JobRow.status r) pending) t)) as Hf.
  { apply List.filter_In. split; [exact Hin | now apply Status_eqb_true]. }
  rewrite Hrow in Hf. exact Hf.
Qed.

Lemma dequeue_total now t :
  (exists r, In r t /\ JobRow.status r = pending) ->
  exists job t', dequeue now t = (Some job, t').
Proof.
  intros (r & Hin & Hst). destruct (dequeue now t) as [[job|] t'] eqn:Hd.
  - eauto.
  - apply dequeue_none in Hd as [_ Hno]. exfalso. now apply (Hno r).
Qed.

End QueueLemmas.

Section QueueTraces.
Import Queue.

Lemma update_where_id_unique j f t :
  (forall r, JobRow.id (f r) = JobRow.id r) ->
  unique_ids t -> unique_ids (update_where_id j f t).
Proof.
  intros Hf. unfold unique_ids, update_where_id.
  rewrite map_ids_preserved; [auto|].
  intros r. destruct (JobRow.id r =? j); [apply Hf | reflexivity].
Qed.

Lemma next_rowid_gt t r : In r t -> JobRow.id r < next_rowid t.
Proof.
  unfold next_rowid. induction t as [|r0 t IH]; simpl; [contradiction|].
  intros [-> | Hin]; [lia | specialize (IH Hin); lia].
Qed.

Lemma select_by_id_app_l j t u r :
  select_by_id j t = Some r -> select_by_id j (t ++ u) = Some r.
Proof.
  unfold select_by_id. induction t as [|r0 t IH]; simpl; [discriminate|].
  destruct (JobRow.id r0 =? j); auto.
Qed.

Lemma step_unique t o : unique_ids t -> unique_ids (step t o).
Proof.
  intros Hu. destruct o as [now tx m d a tags|now|now j|now j e|now]; simpl.
  - unfold unique_ids. rewrite List.map_app. simpl.
    apply NoDup_app. split; [exact Hu|]. split.
    + intros x Hx Hx'. apply list_elem_of_In in Hx.
      apply List.in_map_iff in Hx as (r & <- & Hr).
      apply next_rowid_gt in Hr. apply list_elem_of_singleton in Hx'. lia.
    + apply NoDup_singleton.
  - unfold dequeue.
    destruct (order_by_created_at_limit_1 _); simpl; [|exact Hu].
    apply update_where_id_unique; [apply claim_row_id | exact Hu].
  - apply update_where_id_unique; [apply set_status_id | exact Hu].
  - unfold fail_default, fail.
    destruct (_ <? _);
      (apply update_where_id_unique; [apply set_status_error_id | exact Hu]).
  - unfold new_QueueService, init, update_where_status, unique_ids. simpl.
    rewrite map_ids_preserved; [exact Hu|].
    intros r. destruct (Status_eqb _ _); reflexivity.
Qed.

Lemma run_unique os t : unique_ids t -> unique_ids (run os t).
Proof.
  unfold run. revert t. induction os as [|o os IH]; simpl; intros t Hu;
    [exact Hu | apply IH, step_unique, Hu].
Qed.

(** No call lowers the attempt count of a job or removes the job. *)
Lemma step_attempts_mono j t o r :
  select_by_id j t = Some r ->
  exists r', select_by_id j (step t o) = Some r' /\
             JobRow.attempts r <= JobRow.attempts r'.
Proof.
  intros Hsel.
  destruct o as [now tx m d a tags|now|now k|now k e|now]; simpl.
  - exists r. split; [now apply select_by_id_app_l | lia].
  - unfold dequeue.
    destruct (order_by_created_at_limit_1 _) as [row|]; simpl.
    + rewrite select_by_id_update by apply claim_row_id. rewrite Hsel.
      destruct (j =? JobRow.id row); simpl; eexists; split;
        try reflexivity; simpl; lia.
    + exists r. split; [exact Hsel | lia].
  - unfold complete. rewrite select_by_id_update by apply set_status_id.
    rewrite Hsel. destruct (j =? k); simpl; eexists; split;
      try reflexivity; simpl; lia.
  - unfold fail_default, fail.
    destruct (_ <? _);
      rewrite select_by_id_update by apply set_status_error_id;
      rewrite Hsel; destruct (j =? k); simpl; eexists; split;
      try reflexivity; simpl; lia.
  - unfold new_QueueService, init, update_where_status. simpl.
    rewrite select_by_id_map
      by (intros x; destruct (Status_eqb _ _); reflexivity).
    rewrite Hsel. simpl. eexists. split; [reflexivity|].
    destruct (Status_eqb _ _); simpl; lia.
Qed.

Lemma run_attempts_mono os j t r :
  select_by_id j t = Some r ->
  exists r', select_by_id j (run os t) = Some r' /\
             JobRow.attempts r <= JobRow.attempts r'.
Proof.
  unfold run. revert t r. induction os as [|o os IH]; simpl; intros t r Hsel.
  - exists r. split; [exact Hsel | lia].
  - destruct (step_attempts_mono j t o r Hsel) as (r1 & Hsel1 & Hle1).
    destruct (IH _ _ Hsel1) as (r2 & Hsel2 & Hle2).
    exists r2. split; [exact Hsel2 | lia].
Qed.

(** A pending row never carries the id of an exhausted job. *)
Lemma exhausted_not_pending j t r :
  unique_ids t -> exhausted j t -> In r t -> JobRow.status r = pending ->
  JobRow.id r <> j.
Proof.
  intros Hu (r0 & Hsel & _ & Hst) Hin Hp Hid.
  pose proof (unique_select t r Hu Hin) as Hr. rewrite Hid, Hsel in Hr.
  injection Hr as ->. destruct Hst; congruence.
Qed.

Lemma step_exhausted j t o :
  unique_ids t -> exhausted j t -> exhausted j (step t o).
Proof.
  intros Hu Hex. pose proof Hex as (r & Hsel & Hatt & Hst).
  unfold exhausted.
  destruct o as [now tx m d a tags|now|now k|now k e|now]; simpl.
  - exists r. split; [now apply select_by_id_app_l | auto].
  - destruct (dequeue now t) as [[job|] t'] eqn:Hd; simpl.
    + apply dequeue_some in Hd as (row & Hin & Hp & _ & _ & ->).
      pose proof (exhausted_not_pending j t row Hu Hex Hin Hp) as Hne.
      exists r. rewrite select_by_id_update by apply claim_row_id.
      assert ((j =? JobRow.id row) = false) as -> by (apply Z.eqb_neq; auto).
      auto.
    + apply dequeue_none in Hd as [-> _]. exact Hex.
  - unfold complete. rewrite select_by_id_update by apply set_status_id.
    rewrite Hsel. destruct (j =? k); simpl.
    + eexists. split; [reflexivity|]. simpl. auto.
    + exists r. auto.
  - unfold fail_default, fail. destruct (j =? k) eqn:E.
    + apply Z.eqb_eq in E. subst k. rewrite Hsel.
      assert ((JobRow.attempts r <? 3) = false) as -> by (apply Z.ltb_ge; lia).
      rewrite select_by_id_update by apply set_status_error_id.
      rewrite Z.eqb_refl, Hsel. simpl.
      eexists. split; [reflexivity|]. simpl. auto.
    + destruct (_ <? _);
        rewrite select_by_id_update by apply set_status_error_id;
        rewrite E; exists r; auto.
  - unfold new_QueueService, init, update_where_status. simpl.
    rewrite select_by_id_map
      by (intros x; destruct (Status_eqb _ _); reflexivity).
    rewrite Hsel. simpl.
    assert (Status_eqb (JobRow.status r) processing = false) as ->.
    { apply Status_eqb_false. destruct Hst; congruence. }
    exists r. auto.
Qed.

Lemma run_exhausted os j t :
  unique_ids t -> exhausted j t -> exhausted j (run os t).
Proof.
  unfold run. revert t. induction os as [|o os IH]; simpl; intros t Hu Hex;
    [exact Hex | apply IH; [apply step_unique | apply step_exhausted]; auto].
Qed.

(** One claim of the job [j] followed by its failure. *)
Lemma claim_then_fail j t r now job q now' e :
  unique_ids t -> select_by_id j t = Some r ->
  dequeue now t = (Some job, q) -> Job.id job = j ->
  select_by_id j (fail_default now' j e q) =
  Some (set_status_error
          (if JobRow.attempts r + 1 <? 3 then pending else failed) e now'
          (claim_row now r)).
Proof.
  intros Hu Hsel Hd Hid.
  apply dequeue_some in Hd as (row & Hin & _ & _ & -> & ->).
  simpl in Hid. pose proof (unique_select t row Hu Hin) as Hrow.
  rewrite Hid, Hsel in Hrow. injection Hrow as <-. rewrite Hid.
  assert (select_by_id j (update_where_id j (claim_row now) t)
          = Some (claim_row now r)) as Hq.
  { rewrite select_by_id_update by apply claim_row_id.
    now rewrite Z.eqb_refl, Hsel. }
  unfold fail_default, fail. rewrite Hq. simpl.
  destruct (JobRow.attempts r + 1 <? 3);
    rewrite select_by_id_update by apply set_status_error_id;
    now rewrite Z.eqb_refl, Hq.
Qed.

End QueueTraces.

Section QueueClaims.
Import Queue.

Lemma claim_fail_round j t r os now job q now' e :
  unique_ids t -> select_by_id j t = Some r ->
  dequeue now (run os t) = (Some job, q) -> Job.id job = j ->
  unique_ids (fail_default now' j e q) /\
  exists r', select_by_id j (fail_default now' j e q) = Some r' /\
    JobRow.attempts r + 1 <= JobRow.attempts r' /\
    JobRow.error r' = Some e /\
    (3 <= JobRow.attempts r' -> JobRow.status r' = failed).
Proof.
  intros Hu Hsel Hd Hid.
  pose proof (run_unique os t Hu) as Hu1.
  destruct (run_attempts_mono os j t r Hsel) as (r1 & Hsel1 & Hle1).
  split.
  - pose proof (step_unique _ (OpFail now' j e)
                  (step_unique _ (OpDequeue now) Hu1)) as Hu2.
    simpl in Hu2. now rewrite Hd in Hu2.
  - rewrite (claim_then_fail j _ r1 now job q now' e Hu1 Hsel1 Hd Hid).
    eexists. split; [reflexivity|]. simpl.
    split; [lia|]. split; [reflexivity|].
    intros H3. destruct (JobRow.attempts r1 + 1 <? 3) eqn:E;
      [apply Z.ltb_lt in E; lia | reflexivity].
Qed.

Lemma exhausted_not_dequeued j t now job q :
  unique_ids t -> exhausted j t ->
  dequeue now t = (Some job, q) -> Job.id job <> j.
Proof.
  intros Hu Hex Hd.
  apply dequeue_some in Hd as (row & Hin & Hp & _ & -> & _). simpl.
  now apply (exhausted_not_pending j t row).
Qed.

Lemma exhausted_not_counted j t :
  unique_ids t -> exhausted j t ->
  getPendingCount t = Z.of_nat (List.length (pending_other_than j t)).
Proof.
  intros Hu Hex.
  unfold getPendingCount, count_where_status, select_where_status,
    pending_other_than.
  f_equal. f_equal. apply List.filter_ext_in. intros r Hin.
  destruct (Status_eqb (JobRow.status r) pending) eqn:E; [|reflexivity].
  apply Status_eqb_true in E.
  pose proof (exhausted_not_pending j t r Hu Hex Hin E) as Hne.
  apply Z.eqb_neq in Hne. now rewrite Hne.
Qed.

(** C1 (defect in [dequeue]).  Whenever [dequeue] returns a job, the stored
    row of that id is [processing] and its attempt count is the one
    returned, but the [status] of the returned object is the one read
    before the update, [pending]: the returned object is not the
    post-update view the claim describes. *)
Theorem dequeue_returns_status_read_before_update now t job t' :
  unique_ids t -> dequeue now t = (Some job, t') ->
  Job.status job = pending /\
  exists r, select_by_id (Job.id job) t' = Some r /\
            JobRow.status r = processing /\
            JobRow.attempts r = Job.attempts job.
Proof.
  intros Hu Hd.
  apply dequeue_some in Hd as (row & Hin & Hp & _ & -> & ->). simpl.
  split; [exact Hp|].
  exists (claim_row now row).
  rewrite select_by_id_update by apply claim_row_id.
  rewrite Z.eqb_refl, (unique_select t row Hu Hin). auto.
Qed.

Lemma dequeue_returns_status_read_before_update_witness :
  Job.status
    (Job.mk 1 "tx" "Cafe" "latte" "4.50" [] pending 1 None 10 10) = pending /\
  exists r,
    select_by_id 1 (snd (dequeue 20 [sample_row 1 pending 0 10])) = Some r /\
    JobRow.status r = processing /\ JobRow.attempts r = 1.
Proof.
  apply (dequeue_returns_status_read_before_update 20
           [sample_row 1 pending 0 10]
           (Job.mk 1 "tx" "Cafe" "latte" "4.50" [] pending 1 None 10 10)).
  - unfold unique_ids. simpl. apply NoDup_singleton.
  - reflexivity.
Defined.

(** C2.  [fail] reads the attempt count of the job and, below [maxRetries],
    sets it [pending] again, otherwise [failed], recording the error either
    way and touching no other job; the default bound is 3.  Hence a job
    claimed and failed three times, whatever else happens to the queue in
    between, is [failed] after the third failure, and from then on no
    [dequeue] returns it and [getPendingCount] counts only other jobs. *)
Theorem fail_retries_until_exhausted :
  (forall now j e maxRetries t r,
     select_by_id j t = Some r ->
     select_by_id j (fail now j e maxRetries t) =
       Some (set_status_error
               (if JobRow.attempts r <? maxRetries then pending else failed)
               e now r) /\
     forall k, k <> j ->
       select_by_id k (fail now j e maxRetries t) = select_by_id k t) /\
  (forall now j e t, fail_default now j e t = fail now j e 3 t) /\
  (forall t0 j r0 os1 os2 os3 n1 n2 n3 m1 m2 m3 e1 e2 e3
          job1 job2 job3 q1 q2 q3,
     unique_ids t0 ->
     select_by_id j t0 = Some r0 -> 0 <= JobRow.attempts r0 ->
     dequeue n1 (run os1 t0) = (Some job1, q1) -> Job.id job1 = j ->
     dequeue n2 (run os2 (fail_default m1 j e1 q1)) = (Some job2, q2) ->
     Job.id job2 = j ->
     dequeue n3 (run os3 (fail_default m2 j e2 q2)) = (Some job3, q3) ->
     Job.id job3 = j ->
     let t3 := fail_default m3 j e3 q3 in
     (exists r, select_by_id j t3 = Some r /\
                JobRow.status r = failed /\ JobRow.error r = Some e3) /\
     forall os,
       (forall now job q,
          dequeue now (run os t3) = (Some job, q) -> Job.id job <> j) /\
       getPendingCount (run os t3) =
         Z.of_nat (List.length (pending_other_than j (run os t3)))).
Proof.
  split; [|split].
  - intros now j e maxRetries t r Hsel. unfold fail. rewrite Hsel.
    split.
    + destruct (_ <? _);
        rewrite select_by_id_update by apply set_status_error_id;
        now rewrite Z.eqb_refl, Hsel.
    + intros k Hk. apply Z.eqb_neq in Hk.
      destruct (_ <? _);
        rewrite select_by_id_update by apply set_status_error_id;
        now rewrite Hk.
  - reflexivity.
  - intros t0 j r0 os1 os2 os3 n1 n2 n3 m1 m2 m3 e1 e2 e3
      job1 job2 job3 q1 q2 q3 Hu0 Hsel0 Ha0 Hd1 Hj1 Hd2 Hj2 Hd3 Hj3 t3.
    destruct (claim_fail_round j t0 r0 os1 n1 job1 q1 m1 e1 Hu0 Hsel0 Hd1 Hj1)
      as (Hu1 & r1 & Hsel1 & Ha1 & _ & _).
    destruct (claim_fail_round j _ r1 os2 n2 job2 q2 m2 e2 Hu1 Hsel1 Hd2 Hj2)
      as (Hu2 & r2 & Hsel2 & Ha2 & _ & _).
    destruct (claim_fail_round j _ r2 os3 n3 job3 q3 m3 e3 Hu2 Hsel2 Hd3 Hj3)
      as (Hu3 & r3 & Hsel3 & Ha3 & He3 & Hst3).
    fold t3 in Hu3, Hsel3.
    assert (3 <= JobRow.attempts r3) as H3 by lia.
    specialize (Hst3 H3).
    assert (exhausted j t3) as Hex by (exists r3; auto).
    split; [exists r3; auto|].
    intros os.
    pose proof (run_unique os t3 Hu3) as Hu.
    pose proof (run_exhausted os j t3 Hu3 Hex) as Hex'.
    split.
    + intros now job q Hd.
      exact (exhausted_not_dequeued j (run os t3) now job q Hu Hex' Hd).
    + now apply exhausted_not_counted.
Qed.

End QueueClaims.

Section QueueClaimsContinued.
Import Queue.

Lemma sample_queue_unique : unique_ids sample_queue.
Proof.
  unfold unique_ids. simpl. apply NoDup_cons. split.
  - intros Hin. apply list_elem_of_singleton in Hin. discriminate.
  - apply NoDup_singleton.
Qed.

Lemma fail_retries_until_exhausted_witness :
  let t3 :=
    sample_round 24 "e3" (sample_round 22 "e2" (sample_round 20 "e1"
      sample_queue)) in
  (exists r, select_by_id 1 t3 = Some r /\
             JobRow.status r = failed /\ JobRow.error r = Some "e3") /\
  forall os,
    (forall now job q,
       dequeue now (run os t3) = (Some job, q) -> Job.id job <> 1) /\
    getPendingCount (run os t3) =
      Z.of_nat (List.length (pending_other_than 1 (run os t3))).
Proof.
  destruct fail_retries_until_exhausted as (_ & _ & Hrounds).
  apply (Hrounds sample_queue 1 (sample_row 1 pending 0 10) [] [] []
           20 22 24 21 23 25 "e1" "e2" "e3"
           (sample_job 1 None 10) (sample_job 2 (Some "e1") 21)
           (sample_job 3 (Some "e2") 23)
           (snd (dequeue 20 sample_queue))
           (snd (dequeue 22 (sample_round 20 "e1" sample_queue)))
           (snd (dequeue 24 (sample_round 22 "e2"
                               (sample_round 20 "e1" sample_queue))))).
  - exact sample_queue_unique.
  - reflexivity.
  - simpl. lia.
  - reflexivity.
  - reflexivity.
  - reflexivity.
  - reflexivity.
  - reflexivity.
  - reflexivity.
Defined.

(** C3, as stated, fails: [complete] on a job that is [failed] rewrites the
    stored record, whose status becomes [completed]. *)
Lemma complete_rewrites_a_failed_job :
  select_by_id 1 (complete 30 1 [sample_row 1 failed 3 10]) <>
    select_by_id 1 [sample_row 1 failed 3 10] /\
  option_map JobRow.status
    (select_by_id 1 (complete 30 1 [sample_row 1 failed 3 10])) =
    Some completed.
Proof.
  split; [|reflexivity]. vm_compute. discriminate.
Qed.

(** C3, amended.  [complete] is a no-op when no job has the id; otherwise
    it sets the status of that job to [completed] and its [updated_at] to
    the current time whatever the status was (so a [processing] job becomes
    [completed], and so does a [pending] or [failed] one), keeps every other
    column and every other job, and a second [complete] changes no
    status. *)
Theorem complete_sets_completed_whatever_the_status now j t :
  (select_by_id j t = None -> complete now j t = t) /\
  (forall r, select_by_id j t = Some r ->
     select_by_id j (complete now j t) = Some (set_status completed now r)) /\
  (forall k, k <> j -> select_by_id k (complete now j t) = select_by_id k t) /\
  (forall now',
     List.map JobRow.status (complete now' j (complete now j t)) =
     List.map JobRow.status (complete now j t)).
Proof.
  unfold complete. repeat split.
  - apply update_where_id_none.
  - intros r Hsel. rewrite select_by_id_update by apply set_status_id.
    now rewrite Z.eqb_refl, Hsel.
  - intros k Hk. apply Z.eqb_neq in Hk.
    rewrite select_by_id_update by apply set_status_id. now rewrite Hk.
  - intros now'. unfold update_where_id. rewrite !List.map_map.
    apply List.map_ext. intros r.
    destruct (JobRow.id r =? j) eqn:E; simpl; rewrite E; reflexivity.
Qed.

Lemma complete_sets_completed_whatever_the_status_witness :
  complete 30 7 [sample_row 1 processing 1 10] =
    [sample_row 1 processing 1 10] /\
  select_by_id 1 (complete 30 1 [sample_row 1 processing 1 10]) =
    Some (set_status completed 30 (sample_row 1 processing 1 10)) /\
  select_by_id 2 (complete 30 1 sample_queue) = select_by_id 2 sample_queue.
Proof.
  split; [|split].
  - destruct (complete_sets_completed_whatever_the_status 30 7
                [sample_row 1 processing 1 10]) as (Hnone & _).
    apply Hnone. reflexivity.
  - destruct (complete_sets_completed_whatever_the_status 30 1
                [sample_row 1 processing 1 10]) as (_ & Hsome & _).
    apply Hsome. reflexivity.
  - destruct (complete_sets_completed_whatever_the_status 30 1 sample_queue)
      as (_ & _ & Hother & _).
    apply Hother. lia.
Defined.

Lemma count_after_reset now t :
  count_where_status pending
    (update_where_status processing (set_status pending now) t) =
  count_where_status pending t + count_where_status processing t.
Proof.
  unfold count_where_status, select_where_status, update_where_status.
  induction t as [|r t IH]; simpl; [reflexivity|].
  destruct (JobRow.status r) eqn:Hs; simpl; rewrite ?Hs; simpl; lia.
Qed.

(** C8.  The constructor runs [init] once, and [init] rewrites each row once:
    a [processing] row becomes [pending] (with a new [updated_at]), every
    other row is kept.  Afterwards no job is [processing], the pending count
    is the former one plus the number of jobs reset, which is the count
    [init] logs, and a further pass would find nothing to reset. *)
Theorem init_resets_processing_jobs now t :
  new_QueueService now t = fst (init now t) /\
  List.length (new_QueueService now t) = List.length t /\
  (forall i r, nth_error t i = Some r ->
     nth_error (new_QueueService now t) i =
       Some (match JobRow.status r with
             | processing => set_status pending now r
             | _ => r
             end)) /\
  (forall r', In r' (new_QueueService now t) ->
     JobRow.status r' <> processing) /\
  getPendingCount (new_QueueService now t) =
    getPendingCount t + count_where_status processing t /\
  snd (init now t) = count_where_status processing t /\
  (forall now', init now' (new_QueueService now t) =
                (new_QueueService now t, 0)).
Proof.
  assert (forall r' : JobRow.t, In r' (new_QueueService now t) ->
            JobRow.status r' <> processing) as Hnone.
  { unfold new_QueueService, init, update_where_status. simpl.
    intros r' Hin. apply List.in_map_iff in Hin as (r & <- & _).
    destruct (JobRow.status r) eqn:Hs; simpl; congruence. }
  split; [reflexivity|]. split; [|split; [|split; [|split; [|split]]]].
  - unfold new_QueueService, init, update_where_status. simpl.
    apply List.length_map.
  - intros i r Hi. unfold new_QueueService, init, update_where_status. simpl.
    rewrite (List.map_nth_error _ _ _ Hi).
    destruct (JobRow.status r); reflexivity.
  - exact Hnone.
  - apply count_after_reset.
  - reflexivity.
  - intros now'. unfold init. f_equal.
    + unfold update_where_status.
      rewrite <- (List.map_id (new_QueueService now t)) at 2.
      apply List.map_ext_in. intros r Hin.
      assert (Status_eqb (JobRow.status r) processing = false) as ->
        by (apply Status_eqb_false; auto).
      reflexivity.
    + unfold count_where_status, select_where_status.
      assert (List.filter
                (fun r => Status_eqb (JobRow.status r) processing)
                (new_QueueService now t) = []) as ->; [|reflexivity].
      induction (new_QueueService now t) as [|r l IH]; [reflexivity|].
      simpl.
      assert (Status_eqb (JobRow.status r) processing = false) as ->
        by (apply Status_eqb_false; apply Hnone; now left).
      apply IH. intros r' Hr'. apply Hnone. now right.
Qed.

Lemma init_resets_processing_jobs_witness :
  nth_error
    (new_QueueService 50
       [sample_row 1 processing 1 10; sample_row 2 pending 0 11]) 0 =
    Some (set_status pending 50 (sample_row 1 processing 1 10)) /\
  getPendingCount
    (new_QueueService 50
       [sample_row 1 processing 1 10; sample_row 2 pending 0 11]) = 2.
Proof.
  destruct (init_resets_processing_jobs 50
              [sample_row 1 processing 1 10; sample_row 2 pending 0 11])
    as (_ & _ & Hnth & _ & Hcount & _).
  split.
  - exact (Hnth 0%nat (sample_row 1 processing 1 10) eq_refl).
  - rewrite Hcount. reflexivity.
Defined.

End QueueClaimsContinued.

(** ** The history analysis *)

Section HistoryAnalysis.
Import Worker.

Lemma name_is_true n tx :
  name_is n tx = true <-> TransactionInfo.categoryName tx = Some n.
Proof.
  unfold name_is. destruct (TransactionInfo.categoryName tx) as [x|].
  - rewrite String.eqb_eq. split; congruence.
  - split; discriminate.
Qed.

Lemma name_is_false n tx :
  name_is n tx = false <-> TransactionInfo.categoryName tx <> Some n.
Proof.
  rewrite <- name_is_true. destruct (name_is n tx); split; congruence.
Qed.

Lemma truthy_opt_some o : truthy_opt o = true -> exists s, o = Some s.
Proof. destruct o as [s|]; [eauto | discriminate]. Qed.

(** C4.  With [categorized] the transactions whose category id and name are
    both present (non-null and non-empty), in the order received, the
    decision of [analyzeHistory] is: the cached category when [categorized]
    is empty; the cached category when every name in it is the cached name;
    an override with the id and name of its first element when it is not
    empty and every name in it differs from the cached name; the cached
    category when some name is the cached one and some is not. *)
Theorem analyzeHistory_decision cached recentTxns :
  let categorized := List.filter is_categorized recentTxns in
  let cachedName := CachedCategory.categoryName cached in
  let keep := from_cache (CachedCategory.categoryId cached) cachedName in
  (categorized = [] -> analyzeHistory cached recentTxns = keep) /\
  (Forall (fun tx => TransactionInfo.categoryName tx = Some cachedName)
     categorized ->
   analyzeHistory cached recentTxns = keep) /\
  (forall mostRecent rest,
     categorized = mostRecent :: rest ->
     Forall (fun tx => TransactionInfo.categoryName tx <> Some cachedName)
       categorized ->
     exists i n,
       TransactionInfo.categoryId mostRecent = Some i /\
       TransactionInfo.categoryName mostRecent = Some n /\
       analyzeHistory cached recentTxns = firefly_override i n) /\
  (Exists (fun tx => TransactionInfo.categoryName tx = Some cachedName)
     categorized ->
   Exists (fun tx => TransactionInfo.categoryName tx <> Some cachedName)
     categorized ->
   analyzeHistory cached recentTxns = keep).
Proof.
  intros categorized cachedName keep. unfold analyzeHistory.
  fold categorized. fold cachedName. fold keep.
  split; [|split; [|split]].
  - intros ->. reflexivity.
  - intros Hall. destruct categorized as [|tx0 rest] eqn:Hc; [reflexivity|].
    assert (forallb (name_is cachedName) (tx0 :: rest) = true) as ->;
      [|reflexivity].
    apply List.forallb_forall. rewrite List.Forall_forall in Hall.
    intros tx Hin. apply name_is_true. now apply Hall.
  - intros mostRecent rest Hc Hall. rewrite Hc in *.
    assert (In mostRecent (List.filter is_categorized recentTxns)) as Hin
      by (fold categorized; rewrite Hc; now left).
    apply List.filter_In in Hin as [_ Hcat].
    unfold is_categorized in Hcat. apply andb_true_iff in Hcat as [Hi Hn].
    apply truthy_opt_some in Hi as [i Hi].
    apply truthy_opt_some in Hn as [n Hn].
    exists i, n. split; [exact Hi|]. split; [exact Hn|].
    rewrite List.Forall_forall in Hall.
    assert (forallb (name_is cachedName) (mostRecent :: rest) = false) as ->.
    { simpl. apply andb_false_iff. left. apply name_is_false.
      apply Hall. now left. }
    assert (forallb (fun tx => negb (name_is cachedName tx))
              (mostRecent :: rest) = true) as ->.
    { apply List.forallb_forall. intros tx Htx.
      apply negb_true_iff, name_is_false. now apply Hall. }
    rewrite Hi, Hn. reflexivity.
  - intros Hsome Hother.
    destruct categorized as [|tx0 rest] eqn:Hc; [reflexivity|].
    apply List.Exists_exists in Hsome as (tx1 & Hin1 & H1).
    apply List.Exists_exists in Hother as (tx2 & Hin2 & H2).
    destruct (forallb (name_is cachedName) (tx0 :: rest)) eqn:E1;
      [reflexivity|].
    assert (forallb (fun tx => negb (name_is cachedName tx))
              (tx0 :: rest) = false) as ->; [|reflexivity].
    apply not_true_is_false. intros Hall.
    rewrite List.forallb_forall in Hall. specialize (Hall tx1 Hin1).
    apply negb_true_iff, name_is_false in Hall. contradiction.
Qed.

Lemma analyzeHistory_decision_witness :
  analyzeHistory sample_cached [sample_tx None None] =
    from_cache "1" "Groceries" /\
  analyzeHistory sample_cached
    [sample_tx (Some "1") (Some "Groceries"); sample_tx None (Some "Dining")] =
    from_cache "1" "Groceries" /\
  (exists i n,
     Some "2" = Some i /\ Some "Dining" = Some n /\
     analyzeHistory sample_cached
       [sample_tx (Some "2") (Some "Dining"); sample_tx None None;
        sample_tx (Some "3") (Some "Fun")] = firefly_override i n) /\
  analyzeHistory sample_cached
    [sample_tx (Some "2") (Some "Dining");
     sample_tx (Some "1") (Some "Groceries");
     sample_tx (Some "2") (Some "Dining")] = from_cache "1" "Groceries".
Proof.
  split; [|split; [|split]].
  - destruct (analyzeHistory_decision sample_cached [sample_tx None None])
      as (Hempty & _).
    apply Hempty. reflexivity.
  - destruct (analyzeHistory_decision sample_cached
                [sample_tx (Some "1") (Some "Groceries");
                 sample_tx None (Some "Dining")]) as (_ & Hsame & _).
    apply Hsame. vm_compute. repeat constructor.
  - destruct (analyzeHistory_decision sample_cached
                [sample_tx (Some "2") (Some "Dining"); sample_tx None None;
                 sample_tx (Some "3") (Some "Fun")]) as (_ & _ & Hdiffer & _).
    apply (Hdiffer (sample_tx (Some "2") (Some "Dining"))
             [sample_tx (Some "3") (Some "Fun")]).
    + reflexivity.
    + vm_compute. repeat constructor; discriminate.
  - destruct (analyzeHistory_decision sample_cached
                [sample_tx (Some "2") (Some "Dining");
                 sample_tx (Some "1") (Some "Groceries");
                 sample_tx (Some "2") (Some "Dining")]) as (_ & _ & _ & Hmixed).
    apply Hmixed.
    + vm_compute. apply Exists_cons_tl, Exists_cons_hd. reflexivity.
    + vm_compute. apply Exists_cons_hd. discriminate.
Defined.

End HistoryAnalysis.

(** ** The response parser and the model-assisted path *)

Section ModelPath.
Context `{StringOps}.
Variable config : Config.
Variable env : Collaborators.
Import Worker.

Lemma truthy_value_some x s :
  truthy_value x = Some s -> x = Some s /\ s <> EmptyString.
Proof.
  destruct x as [y|]; simpl; [|discriminate].
  unfold truthy. destruct (String.eqb y EmptyString) eqn:E; simpl; [discriminate|].
  intros [= ->]. split; [reflexivity|]. now apply String.eqb_neq.
Qed.




Lemma find_by_listed_name categories name :
  In name (List.map Category.name categories) ->
  exists c,
    List.find (fun c => String.eqb (Category.name c) name) categories = Some c
    /\ Category.name c = name.
Proof.
  intros Hin.
  destruct (List.find _ categories) as [c|] eqn:Hfind.
  - exists c. split; [reflexivity|].
    apply List.find_some in Hfind as [_ Hc]. now apply String.eqb_eq.
  - apply List.in_map_iff in Hin as (c & <- & Hc).
    apply (List.find_none _ _ Hfind) in Hc.
    now rewrite String.eqb_refl in Hc.
Qed.

Lemma parseResponse_category content validCategories name :
  LLMResponse.category (LLM.parseResponse content validCategories) = Some name
  -> In name validCategories /\ name <> EmptyString.
Proof.
  unfold LLM.parseResponse.
  destruct (truthy_value (List.find _ validCategories)) as [m|] eqn:He.
  - simpl. intros [= <-]. apply truthy_value_some in He as [He Hne].
    apply List.find_some in He as [Hin _]. auto.
  - destruct (truthy_value (List.find (LLM.partial_match _) validCategories))
      as [m|] eqn:Hp; simpl; [|discriminate].
    intros [= <-]. apply truthy_value_some in Hp as [Hp Hne].
    apply List.find_some in Hp as [Hin _]. auto.
Qed.

Lemma log_call_thrice c1 c2 c3 w :
  log_call c3 (log_call c2 (log_call c1 w)) = log_calls [c1; c2; c3] w.
Proof.
  unfold log_call, log_calls. simpl. f_equal.
  now rewrite <- !List.app_assoc.
Qed.

(** The model-assisted path when the history fetch and the model answer. *)
Lemma decideCategory_llm_answered now categories m d a w txns content :
  getRecentTransactionsByMerchant_step3 env = Ok txns ->
  chat_send env = Ok content ->
  decideCategory_llm config env now categories m d a w =
  let w' := log_calls (llm_path_calls config env categories m d a txns) w in
  match truthy_value
          (LLMResponse.category
             (LLM.parseResponse content (List.map Category.name categories)))
  with
  | None => (Ok (skip "LLM could not determine category"), w')
  | Some name =>
      match List.find (fun c => String.eqb (Category.name c) name) categories
      with
      | None =>
          (Ok (skip ("Category " ++ dquote ++ name ++ dquote
                       ++ " not found")%string), w')
      | Some category =>
          (Ok (llm (Category.id category) (Category.name category)),
           with_cache
             (Cache.set now m (Category.name category) (Category.id category)
                (cache w')) w')
      end
  end.
Proof.
  intros Htx Hchat.
  unfold decideCategory_llm, categorize, bind, call, ret, on_cache.
  rewrite Htx, Hchat. cbv zeta. rewrite log_call_thrice.
  unfold llm_path_calls.
  destruct (truthy_value _) as [name|]; [|reflexivity].
  destruct (List.find _ categories) as [c|]; reflexivity.
Qed.

(** The model-assisted path when the history fetch or the model throws:
    the error is passed on. *)
Lemma decideCategory_llm_throws now categories m d a w :
  (exists e, getRecentTransactionsByMerchant_step3 env = Throw e) \/
  (exists e, chat_send env = Throw e) ->
  exists e w',
    decideCategory_llm config env now categories m d a w = (Throw e, w') /\
    cache w' = cache w.
Proof.
  unfold decideCategory_llm, categorize, bind, call, ret, on_cache.
  intros [[e He] | [e He]].
  - rewrite He. simpl. eauto.
  - destruct (getRecentTransactionsByMerchant_step3 env) as [txns|e'];
      [rewrite He|]; simpl; eauto.
Qed.

(** C10.  A name returned by [parseResponse] is one of the names it was
    given, character for character; hence the lookup by exact equality in
    [decideCategory] finds a category of that name, and the only [skip] of
    the model-assisted path is the one for a reply that proposes no
    category: the [skip] for a name not found is never returned. *)
Theorem parseResponse_returns_a_listed_name :
  (forall content validCategories name,
     LLMResponse.category (LLM.parseResponse content validCategories)
       = Some name ->
     In name validCategories) /\
  (forall content categories name,
     LLMResponse.category
       (LLM.parseResponse content (List.map Category.name categories))
       = Some name ->
     exists c,
       List.find (fun c => String.eqb (Category.name c) name) categories
         = Some c /\ Category.name c = name) /\
  (forall now categories m d a w reason,
     fst (decideCategory_llm config env now categories m d a w)
       = Ok (skip reason) ->
     reason = "LLM could not determine category").
Proof.
  split; [|split].
  - intros content validCategories name Hc.
    now apply parseResponse_category in Hc.
  - intros content categories name Hc.
    apply parseResponse_category in Hc as [Hin _].
    now apply find_by_listed_name.
  - intros now categories m d a w reason.
    destruct (getRecentTransactionsByMerchant_step3 env) as [txns|e] eqn:Htx.
    + destruct (chat_send env) as [content|e] eqn:Hchat.
      * rewrite (decideCategory_llm_answered now categories m d a w txns
                   content Htx Hchat). cbv zeta.
        destruct (truthy_value _) as [name|] eqn:Hname.
        -- apply truthy_value_some in Hname as [Hname _].
           apply parseResponse_category in Hname as [Hin _].
           destruct (find_by_listed_name categories name Hin)
             as (c & -> & _).
           simpl. discriminate.
        -- simpl. now intros [= <-].
      * destruct (decideCategory_llm_throws now categories m d a w)
          as (e' & w' & -> & _); [right; eauto|]. simpl. discriminate.
    + destruct (decideCategory_llm_throws now categories m d a w)
        as (e' & w' & -> & _); [left; eauto|]. simpl. discriminate.
Qed.

End ModelPath.

Lemma parseResponse_returns_a_listed_name_witness :
  In "Dining" ["Groceries"; "Dining"] /\
  (exists c,
     List.find (fun c => String.eqb (Category.name c) "Dining")
       sample_categories = Some c /\ Category.name c = "Dining") /\
  "LLM could not determine category" = "LLM could not determine category".
Proof.
  destruct (parseResponse_returns_a_listed_name sample_config
              (sample_env sample_categories "Utilities"))
    as (Hlisted & Hfound & Hskip).
  split; [|split].
  - apply (Hlisted " 'dining' " ["Groceries"; "Dining"] "Dining").
    reflexivity.
  - apply (Hfound "din" sample_categories "Dining"). reflexivity.
  - apply (Hskip 50 sample_categories "Cafe" "latte" "4.50"
             (sample_world [] ∅)). reflexivity.
Defined.

Section ModelPathResolution.
Context `{StringOps}.
Variable config : Config.
Variable env : Collaborators.
Import Worker.





Lemma decideCategory_llm_decision now categories m d a w dec :
  fst (decideCategory_llm config env now categories m d a w) = Ok dec ->
  is_model_path_decision dec = true.
Proof.
  destruct (getRecentTransactionsByMerchant_step3 env) as [txns|e] eqn:Htx.
  - destruct (chat_send env) as [content|e] eqn:Hchat.
    + rewrite (decideCategory_llm_answered config env now categories m d a w
                 txns content Htx Hchat). cbv zeta.
      destruct (truthy_value _) as [name|];
        [destruct (List.find _ categories)|]; simpl; now intros [= <-].
    + destruct (decideCategory_llm_throws config env now categories m d a w)
        as (e' & w' & -> & _); [right; eauto|]. simpl. discriminate.
  - destruct (decideCategory_llm_throws config env now categories m d a w)
      as (e' & w' & -> & _); [left; eauto|]. simpl. discriminate.
Qed.

End ModelPathResolution.



(** The behaviour the amended C6 leaves out: a reply that is empty once
    cleaned proposes no name, yet every name contains the empty text, and
    the first category is decided and cached. *)
Lemma blank_reply_takes_the_first_category :
  strip_quotes (trim "  ") = EmptyString /\
  fst (Worker.decideCategory_llm sample_config
         (sample_env sample_categories "  ") 50 sample_categories
         "Cafe" "latte" "4.50" (sample_world [] ∅)) =
    Ok (llm "1" "Groceries").
Proof. split; reflexivity. Qed.

(** The reply [grocery stuff] of the specification's example: neither it nor
    [Groceries] contains the other, so no category is proposed. *)
Lemma grocery_stuff_is_not_resolved :
  LLMResponse.category
    (LLM.parseResponse "grocery stuff" ["Groceries"; "Dining"]) = None /\
  LLMResponse.category
    (LLM.parseResponse "Groceries" ["Groceries"; "Dining"]) = Some "Groceries"
  /\
  LLMResponse.category
    (LLM.parseResponse "Utilities" ["Groceries"; "Dining"]) = None.
Proof. repeat split. Qed.

(** ** The decision engine on a cache hit *)

Section CacheHit.
Context `{StringOps}.
Variable config : Config.
Variable env : Collaborators.
Import Worker.

Lemma length_test (categories : list Category.t) :
  categories <> [] -> (Z.of_nat (List.length categories) =? 0) = false.
Proof.
  intros Hne. destruct categories; [contradiction|]. reflexivity.
Qed.

(** Step 1: with no category the decision is [skip], and the cache is
    neither read nor written. *)
Lemma decideCategory_no_categories now m d a w :
  getCategories env = Ok [] ->
  decideCategory config env now m d a w =
  (Ok (skip "No categories configured in Firefly"),
   log_call CallGetCategories w).
Proof.
  intros Hcat. unfold decideCategory, bind, call. now rewrite Hcat.
Qed.

Lemma decideCategory_on_miss now m d a w categories :
  getCategories env = Ok categories -> categories <> [] ->
  Cache.get m (cache w) = None ->
  decideCategory config env now m d a w =
  decideCategory_llm config env now categories m d a
    (log_call CallGetCategories w).
Proof.
  intros Hcat Hne Hget.
  unfold decideCategory, bind, call, cache_get. rewrite Hcat.
  rewrite (length_test _ Hne). simpl. now rewrite Hget.
Qed.

(** C5, amended.  When the fetched category list is not empty and the
    merchant has a cache entry whose category id is not in that list,
    [decideCategory] deletes the entry and continues with the model-assisted
    path on the cache without it; its decision, if any, is [llm] or [skip],
    never the cached category. *)
Theorem stale_cache_entry_is_invalidated now m d a w categories cached :
  getCategories env = Ok categories -> categories <> [] ->
  Cache.get m (cache w) = Some cached ->
  category_id_exists categories (CachedCategory.categoryId cached) = false ->
  decideCategory config env now m d a w =
    decideCategory_llm config env now categories m d a
      (with_cache (Cache.invalidate m (cache w))
         (log_call CallGetCategories w)) /\
  Cache.get m (Cache.invalidate m (cache w)) = None /\
  forall dec,
    fst (decideCategory config env now m d a w) = Ok dec ->
    is_model_path_decision dec = true.
Proof.
  intros Hcat Hne Hget Hstale.
  assert (decideCategory config env now m d a w =
          decideCategory_llm config env now categories m d a
            (with_cache (Cache.invalidate m (cache w))
               (log_call CallGetCategories w))) as Heq.
  { unfold decideCategory, bind, call, cache_get, on_cache. rewrite Hcat.
    rewrite (length_test _ Hne). simpl. rewrite Hget, Hstale. reflexivity. }
  split; [exact Heq|]. split.
  - unfold Cache.get, Cache.invalidate. now rewrite lookup_delete_eq.
  - intros dec. rewrite Heq. apply decideCategory_llm_decision.
Qed.

(** C7.  On a cache hit with a valid cached id whose history analysis
    yields an override: when the id of the override is in the fetched
    category list, [decideCategory] returns it and has persisted it with
    [updateFromOverride], so that the entry of the merchant then holds the
    name and id of the override (with the creation time it had); when it is
    not, the cache is left as it is and the model-assisted path decides, so
    the decision is [llm] or [skip], never the cached category. *)
Theorem override_is_validated now m d a w categories cached recentTxns i n :
  getCategories env = Ok categories -> categories <> [] ->
  Cache.get m (cache w) = Some cached ->
  category_id_exists categories (CachedCategory.categoryId cached) = true ->
  getRecentTransactionsByMerchant_step2 env = Ok recentTxns ->
  analyzeHistory cached recentTxns = firefly_override i n ->
  let w2 :=
    log_call (CallGetRecentTransactionsByMerchant m
                (firefly_historyLimit config))
      (log_call CallGetCategories w) in
  (category_id_exists categories i = true ->
   decideCategory config env now m d a w =
     (Ok (firefly_override i n),
      with_cache (Cache.updateFromOverride now m n i (cache w)) w2) /\
   Cache.get m (cache (snd (decideCategory config env now m d a w))) =
     Some (CachedCategory.mk m n i (CachedCategory.createdAt cached) now)) /\
  (category_id_exists categories i = false ->
   decideCategory config env now m d a w =
     decideCategory_llm config env now categories m d a w2 /\
   cache w2 = cache w /\
   forall dec,
     fst (decideCategory config env now m d a w) = Ok dec ->
     is_model_path_decision dec = true).
Proof.
  intros Hcat Hne Hget Hvalid Htx Hov w2.
  assert (decideCategory config env now m d a w =
          if category_id_exists categories i
          then (Ok (firefly_override i n),
                with_cache (Cache.updateFromOverride now m n i (cache w)) w2)
          else decideCategory_llm config env now categories m d a w2) as Heq.
  { unfold decideCategory, bind, call, cache_get, on_cache, ret. rewrite Hcat.
    rewrite (length_test _ Hne). simpl. rewrite Hget, Hvalid. simpl.
    rewrite Htx, Hov. destruct (category_id_exists categories i);
      reflexivity. }
  split; intros Hi; rewrite Hi in Heq.
  - split; [exact Heq|]. rewrite Heq. simpl.
    unfold Cache.get, Cache.updateFromOverride in *.
    rewrite lookup_alter_eq.
    destruct (cache w !! m) as [row|]; [|discriminate Hget].
    injection Hget as <-. reflexivity.
  - split; [exact Heq|]. split; [reflexivity|].
    intros dec. rewrite Heq. apply decideCategory_llm_decision.
Qed.

(** A decision that is not an override on a valid cache hit is returned as
    it is, with no write to the cache. *)
Lemma cache_decision_is_returned now m d a w categories cached recentTxns :
  getCategories env = Ok categories -> categories <> [] ->
  Cache.get m (cache w) = Some cached ->
  category_id_exists categories (CachedCategory.categoryId cached) = true ->
  getRecentTransactionsByMerchant_step2 env = Ok recentTxns ->
  (forall i n, analyzeHistory cached recentTxns <> firefly_override i n) ->
  decideCategory config env now m d a w =
    (Ok (analyzeHistory cached recentTxns),
     log_call (CallGetRecentTransactionsByMerchant m
                 (firefly_historyLimit config))
       (log_call CallGetCategories w)).
Proof.
  intros Hcat Hne Hget Hvalid Htx Hno.
  unfold decideCategory, bind, call, cache_get, on_cache, ret. rewrite Hcat.
  rewrite (length_test _ Hne). simpl. rewrite Hget, Hvalid. simpl.
  rewrite Htx. destruct (analyzeHistory cached recentTxns) eqn:E;
    try reflexivity.
  exfalso. eapply Hno. reflexivity.
Qed.

End CacheHit.

(** C5, as stated, fails when the fetched category list is empty: the id of
    the entry is absent from it, yet the decision is the [skip] of the first
    test, the entry stays, and the model-assisted path is not entered. *)
Lemma stale_entry_stays_when_no_categories :
  let c : Cache.merchant_categories :=
    <["Cafe" := CacheRow.mk "Groceries" "1" 10 10]> ∅ in
  let r :=
    Worker.decideCategory sample_config (sample_env [] "Dining") 50
      "Cafe" "latte" "4.50" (sample_world [] c) in
  category_id_exists [] "1" = false /\
  fst r = Ok (skip "No categories configured in Firefly") /\
  Cache.get "Cafe" (cache (snd r)) =
    Some (CachedCategory.mk "Cafe" "Groceries" "1" 10 10) /\
  calls (snd r) = [CallGetCategories].
Proof. repeat split. Qed.

Lemma stale_cache_entry_is_invalidated_witness :
  let c : Cache.merchant_categories :=
    <["Cafe" := CacheRow.mk "Groceries" "1" 10 10]> ∅ in
  Worker.decideCategory sample_config
    (sample_env [Category.mk "2" "Dining"] "Dining") 50
    "Cafe" "latte" "4.50" (sample_world [] c) =
  Worker.decideCategory_llm sample_config
    (sample_env [Category.mk "2" "Dining"] "Dining") 50
    [Category.mk "2" "Dining"] "Cafe" "latte" "4.50"
    (with_cache (Cache.invalidate "Cafe" c)
       (log_call CallGetCategories (sample_world [] c))).
Proof.
  intros c.
  apply (stale_cache_entry_is_invalidated sample_config
           (sample_env [Category.mk "2" "Dining"] "Dining") 50
           "Cafe" "latte" "4.50" (sample_world [] c)
           [Category.mk "2" "Dining"]
           (CachedCategory.mk "Cafe" "Groceries" "1" 10 10)).
  - reflexivity.
  - discriminate.
  - reflexivity.
  - reflexivity.
Defined.

Lemma override_is_validated_witness :
  Worker.decideCategory sample_config
    (sample_env_with_history sample_categories "Dining"
       [sample_tx (Some "2") (Some "Dining")]) 50
    "Cafe" "latte" "4.50" (sample_world [] sample_cache) =
    (Ok (firefly_override "2" "Dining"),
     with_cache (Cache.updateFromOverride 50 "Cafe" "Dining" "2" sample_cache)
       (log_call (CallGetRecentTransactionsByMerchant "Cafe" 5)
          (log_call CallGetCategories (sample_world [] sample_cache)))) /\
  Cache.get "Cafe"
    (cache (snd (Worker.decideCategory sample_config
                   (sample_env_with_history sample_categories "Dining"
                      [sample_tx (Some "2") (Some "Dining")]) 50
                   "Cafe" "latte" "4.50" (sample_world [] sample_cache)))) =
    Some (CachedCategory.mk "Cafe" "Dining" "2" 10 50).
Proof.
  destruct (override_is_validated sample_config
              (sample_env_with_history sample_categories "Dining"
                 [sample_tx (Some "2") (Some "Dining")]) 50
              "Cafe" "latte" "4.50" (sample_world [] sample_cache)
              sample_categories
              (CachedCategory.mk "Cafe" "Groceries" "1" 10 10)
              [sample_tx (Some "2") (Some "Dining")] "2" "Dining")
    as (Hvalid & _).
  - reflexivity.
  - discriminate.
  - reflexivity.
  - reflexivity.
  - reflexivity.
  - reflexivity.
  - apply Hvalid. reflexivity.
Defined.

(** ** The worker loop *)

Section WorkerLoop.
Context `{StringOps}.
Variable config : Config.
Variable env : Collaborators.
Import Worker.

Lemma extends_refl w : extends_without_update w w.
Proof.
  split; [reflexivity|]. exists []. split; [|reflexivity].
  now rewrite List.app_nil_r.
Qed.

Lemma extends_trans w1 w2 w3 :
  extends_without_update w1 w2 -> extends_without_update w2 w3 ->
  extends_without_update w1 w3.
Proof.
  intros (Hq1 & cs1 & Hc1 & Hf1) (Hq2 & cs2 & Hc2 & Hf2).
  split; [congruence|]. exists (cs1 ++ cs2). split.
  - rewrite Hc2, Hc1. now rewrite List.app_assoc.
  - rewrite List.forallb_app, Hf1, Hf2. reflexivity.
Qed.

Lemma extends_log_call c w :
  is_update_call c = false -> extends_without_update w (log_call c w).
Proof.
  intros Hc. split; [reflexivity|]. exists [c]. split; [reflexivity|].
  simpl. now rewrite Hc.
Qed.

Lemma decideCategory_llm_extends now categories m d a w :
  extends_without_update w
    (snd (decideCategory_llm config env now categories m d a w)).
Proof.
  assert (extends_without_update w
            (log_call (CallGetRecentTransactionsByMerchant m
                         (firefly_historyLimit config))
               (log_call (CallSearchMerchant m) w))) as H2.
  { eapply extends_trans; apply extends_log_call; reflexivity. }
  unfold decideCategory_llm, categorize, bind, call, ret, on_cache.
  destruct (getRecentTransactionsByMerchant_step3 env) as [txns|e];
    [|exact H2].
  simpl.
  assert (extends_without_update w
            (log_call
               (CallChatSend (List.map Category.name categories) m d a txns
                  (searchMerchant env))
               (log_call (CallGetRecentTransactionsByMerchant m
                            (firefly_historyLimit config))
                  (log_call (CallSearchMerchant m) w)))) as H3.
  { eapply extends_trans; [exact H2 | apply extends_log_call; reflexivity]. }
  destruct (chat_send env) as [content|e]; [|exact H3].
  destruct (truthy_value _) as [name|]; [|exact H3].
  destruct (List.find _ categories) as [c|]; exact H3.
Qed.

Lemma decideCategory_extends now m d a w :
  extends_without_update w (snd (decideCategory config env now m d a w)).
Proof.
  assert (extends_without_update w (log_call CallGetCategories w)) as H1
    by (apply extends_log_call; reflexivity).
  unfold decideCategory, bind, call, cache_get, on_cache, ret.
  destruct (getCategories env) as [categories|e]; [|exact H1].
  destruct (Z.of_nat (List.length categories) =? 0); [exact H1|].
  simpl.
  destruct (Cache.get m (cache w)) as [cached|].
  - destruct (category_id_exists categories
                (CachedCategory.categoryId cached)); simpl.
    + assert (extends_without_update w
                (log_call (CallGetRecentTransactionsByMerchant m
                             (firefly_historyLimit config))
                   (log_call CallGetCategories w))) as H2.
      { eapply extends_trans; [exact H1|].
        apply extends_log_call; reflexivity. }
      destruct (getRecentTransactionsByMerchant_step2 env) as [txns|e];
        [|exact H2].
      destruct (analyzeHistory cached txns) as [i n|i n|i n|r];
        try exact H2.
      destruct (category_id_exists categories i); [exact H2|].
      eapply extends_trans; [exact H2 | apply decideCategory_llm_extends].
    + eapply extends_trans; [|apply decideCategory_llm_extends]. exact H1.
  - eapply extends_trans; [exact H1 | apply decideCategory_llm_extends].
Qed.

(** C9.  When [poll] claims a job and [decideCategory] returns [skip] for
    it, [poll] resolves the job with [complete], not with [fail], and asks
    for the next run at once; the calls made contain no transaction update.
    Under the primary key the job is then stored as [completed], with the
    error column and the attempt count the claim left. *)
Theorem skip_completes_the_job now_claim now_cache now_resolve w job q
    reason w' :
  Queue.dequeue now_claim (queue w) = (Some job, q) ->
  decideCategory config env now_cache (Job.merchantName job)
    (Job.description job) (Job.amount job) (with_queue q w)
    = (Ok (skip reason), w') ->
  poll config env now_claim now_cache now_resolve w =
    (0, with_queue (Queue.complete now_resolve (Job.id job) q) w') /\
  (exists cs,
     calls (snd (poll config env now_claim now_cache now_resolve w)) =
       calls w ++ cs /\
     List.forallb (fun c => negb (is_update_call c)) cs = true) /\
  (Queue.unique_ids (queue w) ->
   exists r,
     Queue.select_by_id (Job.id job)
       (queue (snd (poll config env now_claim now_cache now_resolve w)))
       = Some r /\
     JobRow.status r = completed /\
     JobRow.error r = Job.error job /\
     JobRow.attempts r = Job.attempts job).
Proof.
  intros Hd Hdec.
  pose proof (decideCategory_extends now_cache (Job.merchantName job)
                (Job.description job) (Job.amount job) (with_queue q w))
    as Hext.
  rewrite Hdec in Hext. simpl in Hext. destruct Hext as (Hq & cs & Hcs & Hf).
  assert (poll config env now_claim now_cache now_resolve w =
          (0, with_queue (Queue.complete now_resolve (Job.id job) q) w'))
    as Hpoll.
  { unfold poll, processJob, bind, ret. rewrite Hd, Hdec. simpl.
    now rewrite Hq. }
  split; [exact Hpoll|]. rewrite Hpoll. simpl. split.
  - exists cs. auto.
  - intros Hu.
    apply dequeue_some in Hd as (row & Hin & _ & _ & -> & ->). simpl.
    unfold Queue.complete.
    rewrite select_by_id_update by apply set_status_id.
    rewrite select_by_id_update by apply claim_row_id.
    rewrite Z.eqb_refl, (unique_select _ row Hu Hin). simpl.
    eexists. split; [reflexivity|]. auto.
Qed.

End WorkerLoop.

Lemma skip_completes_the_job_witness :
  Worker.poll sample_config (sample_env [Category.mk "7" EmptyString] "Dining")
    50 51 52 (sample_world sample_queue ∅) =
  (0,
   with_queue (Queue.complete 52 1 (snd (Queue.dequeue 50 sample_queue)))
     (snd (Worker.decideCategory sample_config
             (sample_env [Category.mk "7" EmptyString] "Dining") 51
             "Cafe" "latte" "4.50"
             (with_queue (snd (Queue.dequeue 50 sample_queue))
                (sample_world sample_queue ∅))))).
Proof.
  destruct (skip_completes_the_job sample_config
              (sample_env [Category.mk "7" EmptyString] "Dining") 50 51 52
              (sample_world sample_queue ∅) (sample_job 1 None 10)
              (snd (Queue.dequeue 50 sample_queue))
              "LLM could not determine category"
              (snd (Worker.decideCategory sample_config
                      (sample_env [Category.mk "7" EmptyString] "Dining") 51
                      "Cafe" "latte" "4.50"
                      (with_queue (snd (Queue.dequeue 50 sample_queue))
                         (sample_world sample_queue ∅)))))
    as (Hpoll & _).
  - reflexivity.
  - reflexivity.
  - exact Hpoll.
Defined.

(** * Further properties *)

(** ** The queue *)

Section QueueFurther.
Import Queue.

Lemma select_by_id_app_r j t u :
  select_by_id j t = None -> select_by_id j (t ++ u) = select_by_id j u.
Proof.
  unfold select_by_id. induction t as [|r0 t IH]; simpl; [reflexivity|].
  destruct (JobRow.id r0 =? j); [discriminate | exact IH].
Qed.

Lemma select_by_id_fresh t : select_by_id (next_rowid t) t = None.
Proof.
  destruct (select_by_id (next_rowid t) t) as [r|] eqn:Hsel; [|reflexivity].
  apply select_by_id_some in Hsel as [Hin Hid].
  apply next_rowid_gt in Hin. lia.
Qed.

Lemma count_app s t u :
  count_where_status s (t ++ u) =
  count_where_status s t + count_where_status s u.
Proof.
  unfold count_where_status, select_where_status.
  rewrite List.filter_app, List.length_app. lia.
Qed.

(** X1.  [enqueue] returns an id larger than every id of the table, stores
    under it a [pending] job with no attempt and no error that carries the
    arguments, keeps every other job, raises the pending count by one and
    keeps the ids distinct. *)
Theorem enqueue_adds_fresh_pending_job now tx m d a tags t :
  (forall r, In r t -> JobRow.id r < fst (enqueue now tx m d a tags t)) /\
  select_by_id (fst (enqueue now tx m d a tags t))
    (snd (enqueue now tx m d a tags t)) =
    Some (JobRow.mk (fst (enqueue now tx m d a tags t)) tx m d a tags
            pending 0 None now now) /\
  (forall k, k <> fst (enqueue now tx m d a tags t) ->
     select_by_id k (snd (enqueue now tx m d a tags t)) = select_by_id k t) /\
  getPendingCount (snd (enqueue now tx m d a tags t)) =
    getPendingCount t + 1 /\
  (unique_ids t -> unique_ids (snd (enqueue now tx m d a tags t))).
Proof.
  simpl. split; [|split; [|split; [|split]]].
  - intros r Hin. now apply next_rowid_gt.
  - rewrite select_by_id_app_r by apply select_by_id_fresh.
    unfold select_by_id. simpl. now rewrite Z.eqb_refl.
  - intros k Hk. destruct (select_by_id k t) as [r|] eqn:Hsel.
    + now apply select_by_id_app_l.
    + rewrite select_by_id_app_r by exact Hsel.
      unfold select_by_id. simpl.
      assert ((next_rowid t =? k) = false) as -> by (apply Z.eqb_neq; auto).
      reflexivity.
  - unfold getPendingCount. rewrite count_app. reflexivity.
  - intros Hu. exact (step_unique t (OpEnqueue now tx m d a tags) Hu).
Qed.

Lemma enqueue_adds_fresh_pending_job_witness :
  JobRow.id (sample_row 2 pending 0 11) <
    fst (enqueue 30 "tx9" "Shop" "milk" "1.20" ["a"] sample_queue) /\
  select_by_id 1 (snd (enqueue 30 "tx9" "Shop" "milk" "1.20" ["a"]
                         sample_queue)) = select_by_id 1 sample_queue /\
  unique_ids (snd (enqueue 30 "tx9" "Shop" "milk" "1.20" ["a"] sample_queue)).
Proof.
  destruct (enqueue_adds_fresh_pending_job 30 "tx9" "Shop" "milk" "1.20"
              ["a"] sample_queue) as (Hlt & _ & Hother & _ & Hu).
  split; [|split].
  - apply Hlt. right. left. reflexivity.
  - apply Hother. discriminate.
  - apply Hu. exact sample_queue_unique.
Defined.

Lemma no_pending_filter t :
  (forall r, In r t -> JobRow.status r <> pending) ->
  select_where_status pending t = [].
Proof.
  unfold select_where_status. induction t as [|r t IH]; simpl; intros Hno;
    [reflexivity|].
  assert (Status_eqb (JobRow.status r) pending = false) as ->
    by (apply Status_eqb_false; apply Hno; now left).
  apply IH. intros r' Hr'. apply Hno. now right.
Qed.

(** X2.  A job enqueued into a table with no pending job is the one the
    next [dequeue] returns, with the enqueued fields and one attempt. *)
Theorem enqueue_then_dequeue now now' tx m d a tags t :
  (forall r, In r t -> JobRow.status r <> pending) ->
  fst (dequeue now' (snd (enqueue now tx m d a tags t))) =
  Some (Job.mk (fst (enqueue now tx m d a tags t)) tx m d a tags pending 1
          None now now).
Proof.
  intros Hno. unfold dequeue, enqueue. simpl.
  unfold select_where_status. rewrite List.filter_app.
  fold (select_where_status pending t). rewrite (no_pending_filter t Hno).
  reflexivity.
Qed.

Lemma enqueue_then_dequeue_witness :
  fst (dequeue 40
         (snd (enqueue 30 "tx9" "Shop" "milk" "1.20" ["a"]
                 [sample_row 1 completed 1 10]))) =
  Some (Job.mk 2 "tx9" "Shop" "milk" "1.20" ["a"] pending 1 None 30 30).
Proof.
  apply (enqueue_then_dequeue 30 40 "tx9" "Shop" "milk" "1.20" ["a"]
           [sample_row 1 completed 1 10]).
  intros r [<- | []]. discriminate.
Defined.

(** X3.  First in, first out: while a pending job created before the time
    of an [enqueue] is in the table, [dequeue] does not return the job just
    enqueued but a pending job of the table created before it. *)
Theorem older_pending_job_goes_first now now' tx m d a tags t older job q :
  In older t -> JobRow.status older = pending ->
  JobRow.created_at older < now ->
  dequeue now' (snd (enqueue now tx m d a tags t)) = (Some job, q) ->
  Job.id job <> fst (enqueue now tx m d a tags t) /\
  Job.createdAt job <= JobRow.created_at older /\
  exists row, In row t /\ JobRow.status row = pending /\
              JobRow.id row = Job.id job.
Proof.
  intros Hin Hp Hlt Hd.
  apply dequeue_some in Hd as (row & Hrow & Hrp & Hmin & -> & _). simpl in *.
  assert (JobRow.created_at row <= JobRow.created_at older) as Hle.
  { apply Hmin; [|exact Hp]. apply List.in_or_app. now left. }
  apply List.in_app_or in Hrow as [Hrow | [<- | []]]; [|simpl in Hle; lia].
  split; [|split; [exact Hle | eauto]].
  apply next_rowid_gt in Hrow. lia.
Qed.

Lemma older_pending_job_goes_first_witness :
  Job.id (sample_job 1 None 10) <>
    fst (enqueue 30 "tx9" "Shop" "milk" "1.20" ["a"] sample_queue) /\
  Job.createdAt (sample_job 1 None 10) <=
    JobRow.created_at (sample_row 2 pending 0 11) /\
  exists row, In row sample_queue /\ JobRow.status row = pending /\
              JobRow.id row = Job.id (sample_job 1 None 10).
Proof.
  apply (older_pending_job_goes_first 30 40 "tx9" "Shop" "milk" "1.20" ["a"]
           sample_queue (sample_row 2 pending 0 11) (sample_job 1 None 10)
           (snd (dequeue 40 (snd (enqueue 30 "tx9" "Shop" "milk" "1.20" ["a"]
                                    sample_queue))))).
  - right. left. reflexivity.
  - reflexivity.
  - reflexivity.
  - reflexivity.
Defined.

(** The effect on a count of an update at the id of a row of the table. *)
Lemma count_cons s r t :
  count_where_status s (r :: t) =
  (if Status_eqb (JobRow.status r) s then 1 else 0) + count_where_status s t.
Proof.
  unfold count_where_status, select_where_status. simpl.
  destruct (Status_eqb (JobRow.status r) s); simpl length; lia.
Qed.

Lemma count_update_row s f t row :
  (forall r, JobRow.id (f r) = JobRow.id r) ->
  unique_ids t -> In row t ->
  count_where_status s (update_where_id (JobRow.id row) f t) =
  count_where_status s t
  - (if Status_eqb (JobRow.status row) s then 1 else 0)
  + (if Status_eqb (JobRow.status (f row)) s then 1 else 0).
Proof.
  intros Hf. unfold unique_ids.
  induction t as [|r0 t IH]; intros Hu Hin; [contradiction|].
  simpl in Hu. apply NoDup_cons in Hu as [Hnotin Hu].
  change (update_where_id (JobRow.id row) f (r0 :: t))
    with ((if JobRow.id r0 =? JobRow.id row then f r0 else r0)
          :: update_where_id (JobRow.id row) f t).
  rewrite !count_cons.
  destruct Hin as [-> | Hin].
  - rewrite Z.eqb_refl. rewrite update_where_id_none; [lia|].
    destruct (select_by_id (JobRow.id row) t) as [r|] eqn:Hsel;
      [|reflexivity].
    apply select_by_id_some in Hsel as [Hr Hid]. exfalso. apply Hnotin.
    rewrite list_elem_of_In, <- Hid. now apply List.in_map.
  - rewrite (IH Hu Hin).
    assert ((JobRow.id r0 =? JobRow.id row) = false) as ->; [|lia].
    apply Z.eqb_neq. intros Heq. apply Hnotin.
    rewrite list_elem_of_In, Heq. now apply List.in_map.
Qed.

(** X4.  Under the primary key, a [dequeue] that returns a job claimed a
    pending job of least [created_at]: the stored job of that id is the row
    read with status [processing], one more attempt and the current time;
    every other job is kept; one job less is pending and one more is
    processing.  A [dequeue] that returns nothing found no pending job and
    left the table as it was. *)
Theorem dequeue_claims_an_oldest_pending_job now t :
  unique_ids t ->
  match dequeue now t with
  | (Some job, t') =>
      exists row,
        In row t /\ JobRow.status row = pending /\
        (forall r, In r t -> JobRow.status r = pending ->
                   JobRow.created_at row <= JobRow.created_at r) /\
        Job.id job = JobRow.id row /\
        Job.attempts job = JobRow.attempts row + 1 /\
        select_by_id (Job.id job) t' = Some (claim_row now row) /\
        (forall k, k <> Job.id job -> select_by_id k t' = select_by_id k t) /\
        getPendingCount t' = getPendingCount t - 1 /\
        count_where_status processing t' =
          count_where_status processing t + 1
  | (None, t') =>
      t' = t /\ forall r, In r t -> JobRow.status r <> pending
  end.
Proof.
  intros Hu. destruct (dequeue now t) as [[job|] t'] eqn:Hd.
  - apply dequeue_some in Hd as (row & Hin & Hp & Hmin & -> & ->). simpl.
    exists row. repeat (split; [solve [auto]|]).
    split; [|split; [|split]].
    + rewrite select_by_id_update by apply claim_row_id.
      now rewrite Z.eqb_refl, (unique_select t row Hu Hin).
    + intros k Hk. apply Z.eqb_neq in Hk.
      rewrite select_by_id_update by apply claim_row_id. now rewrite Hk.
    + unfold getPendingCount.
      rewrite (count_update_row pending (claim_row now) t row
                 (claim_row_id now) Hu Hin).
      rewrite Hp. simpl. lia.
    + rewrite (count_update_row processing (claim_row now) t row
                 (claim_row_id now) Hu Hin).
      rewrite Hp. simpl. lia.
  - now apply dequeue_none in Hd.
Qed.

Lemma dequeue_claims_an_oldest_pending_job_witness :
  getPendingCount (snd (dequeue 20 sample_queue)) =
    getPendingCount sample_queue - 1.
Proof.
  pose proof (dequeue_claims_an_oldest_pending_job 20 sample_queue
                sample_queue_unique) as Hd.
  destruct (dequeue 20 sample_queue) as [[job|] t'] eqn:E.
  - destruct Hd as (row & _ & _ & _ & _ & _ & _ & _ & Hcount & _).
    exact Hcount.
  - discriminate E.
Defined.

End QueueFurther.

Section QueueInvariants.
Import Queue.

Lemma update_where_id_attempts j f t :
  (forall r, JobRow.attempts (f r) = JobRow.attempts r) ->
  List.map JobRow.attempts (update_where_id j f t) =
  List.map JobRow.attempts t.
Proof.
  intros Hf. unfold update_where_id. rewrite List.map_map.
  apply List.map_ext. intros r. destruct (JobRow.id r =? j); auto.
Qed.

(** X5.  Only a claim counts an attempt: [fail], [complete] and the reset of
    [init] leave every attempt count as it is; and [fail] with an id that no
    job has changes nothing. *)
Theorem only_a_claim_counts_an_attempt now j e maxRetries t :
  List.map JobRow.attempts (fail now j e maxRetries t) =
    List.map JobRow.attempts t /\
  List.map JobRow.attempts (complete now j t) = List.map JobRow.attempts t /\
  List.map JobRow.attempts (new_QueueService now t) =
    List.map JobRow.attempts t /\
  (select_by_id j t = None -> fail now j e maxRetries t = t).
Proof.
  split; [|split; [|split]].
  - unfold fail. destruct (_ <? _); now apply update_where_id_attempts.
  - now apply update_where_id_attempts.
  - unfold new_QueueService, init, update_where_status. simpl.
    rewrite List.map_map. apply List.map_ext. intros r.
    destruct (Status_eqb _ _); reflexivity.
  - intros Hsel. unfold fail. rewrite Hsel.
    destruct (_ <? _); now apply update_where_id_none.
Qed.

Lemma only_a_claim_counts_an_attempt_witness :
  fail 30 7 "boom" 3 sample_queue = sample_queue.
Proof.
  destruct (only_a_claim_counts_an_attempt 30 7 "boom" 3 sample_queue)
    as (_ & _ & _ & Hnone).
  apply Hnone. reflexivity.
Defined.

Lemma step_keeps_job j t o r :
  select_by_id j t = Some r ->
  exists r', select_by_id j (step t o) = Some r' /\
             job_payload r' = job_payload r /\
             JobRow.attempts r <= JobRow.attempts r' /\
             JobRow.attempts r' <= JobRow.attempts r + dequeue_calls [o].
Proof.
  intros Hsel.
  destruct o as [now tx m d a tags|now|now k|now k e|now]; simpl.
  - exists r. split; [now apply select_by_id_app_l|].
    split; [reflexivity|]. unfold dequeue_calls. simpl. lia.
  - unfold dequeue.
    destruct (order_by_created_at_limit_1 _) as [row|]; simpl.
    + rewrite select_by_id_update by apply claim_row_id. rewrite Hsel.
      destruct (j =? JobRow.id row); simpl; eexists;
        (split; [reflexivity|]); (split; [reflexivity|]);
        unfold dequeue_calls; simpl; lia.
    + exists r. split; [exact Hsel|]. split; [reflexivity|].
      unfold dequeue_calls. simpl. lia.
  - unfold complete. rewrite select_by_id_update by apply set_status_id.
    rewrite Hsel. destruct (j =? k); simpl; eexists;
      (split; [reflexivity|]); (split; [reflexivity|]);
      unfold dequeue_calls; simpl; lia.
  - unfold fail_default, fail.
    destruct (_ <? _);
      rewrite select_by_id_update by apply set_status_error_id;
      rewrite Hsel; destruct (j =? k); simpl; eexists;
      (split; [reflexivity|]); (split; [reflexivity|]);
      unfold dequeue_calls; simpl; lia.
  - unfold new_QueueService, init, update_where_status. simpl.
    rewrite select_by_id_map
      by (intros x; destruct (Status_eqb _ _); reflexivity).
    rewrite Hsel. simpl. eexists. split; [reflexivity|].
    destruct (Status_eqb _ _); (split; [reflexivity|]);
      unfold dequeue_calls; simpl; lia.
Qed.

Lemma dequeue_calls_cons o os :
  dequeue_calls (o :: os) = dequeue_calls [o] + dequeue_calls os.
Proof.
  unfold dequeue_calls. simpl. destruct o; simpl length; lia.
Qed.

(** X6.  No call removes a job or rewrites what it is about: over every
    sequence of calls a job of the table is still stored under its id with
    the same transaction id, merchant, description, amount, tags and
    creation time; its attempt count has not decreased and has grown by at
    most the number of [dequeue] calls. *)
Theorem jobs_are_kept_and_only_claims_count os j t r :
  select_by_id j t = Some r ->
  exists r', select_by_id j (run os t) = Some r' /\
             job_payload r' = job_payload r /\
             JobRow.attempts r <= JobRow.attempts r' /\
             JobRow.attempts r' <= JobRow.attempts r + dequeue_calls os.
Proof.
  unfold run. revert t r. induction os as [|o os IH]; simpl; intros t r Hsel.
  - exists r. split; [exact Hsel|]. split; [reflexivity|].
    unfold dequeue_calls. simpl. lia.
  - destruct (step_keeps_job j t o r Hsel) as (r1 & Hsel1 & Hp1 & Hge1 & Hle1).
    destruct (IH _ _ Hsel1) as (r2 & Hsel2 & Hp2 & Hge2 & Hle2).
    exists r2. split; [exact Hsel2|]. split; [congruence|].
    rewrite (dequeue_calls_cons o os). lia.
Qed.

Lemma jobs_are_kept_and_only_claims_count_witness :
  exists r',
    select_by_id 1
      (run [OpDequeue 20; OpFail 21 1 "boom"; OpRestart 30;
            OpEnqueue 31 "tx9" "Shop" "milk" "1.20" []; OpDequeue 32;
            OpComplete 33 1] sample_queue) = Some r' /\
    job_payload r' = job_payload (sample_row 1 pending 0 10) /\
    JobRow.attempts (sample_row 1 pending 0 10) <= JobRow.attempts r' /\
    JobRow.attempts r' <=
      JobRow.attempts (sample_row 1 pending 0 10)
      + dequeue_calls [OpDequeue 20; OpFail 21 1 "boom"; OpRestart 30;
                       OpEnqueue 31 "tx9" "Shop" "milk" "1.20" [];
                       OpDequeue 32; OpComplete 33 1].
Proof.
  apply (jobs_are_kept_and_only_claims_count
           [OpDequeue 20; OpFail 21 1 "boom"; OpRestart 30;
            OpEnqueue 31 "tx9" "Shop" "milk" "1.20" []; OpDequeue 32;
            OpComplete 33 1] 1 sample_queue (sample_row 1 pending 0 10)).
  reflexivity.
Defined.

End QueueInvariants.

(** ** The worker loop, further *)

Section WorkerFurther.
Context `{StringOps}.
Variable config : Config.
Variable env : Collaborators.
Import Worker.

Lemma with_queue_same w : with_queue (queue w) w = w.
Proof. destruct w. reflexivity. Qed.

Lemma processJob_queue now job w :
  queue (snd (processJob config env now job w)) = queue w.
Proof.
  unfold processJob, bind, ret, updateTransactionCategory, call.
  pose proof (decideCategory_extends config env now (Job.merchantName job)
                (Job.description job) (Job.amount job) w) as [Hq _].
  destruct (decideCategory _ _ _ _ _ _ w) as [[dec|e] w1]; simpl in *;
    [|exact Hq].
  destruct (is_skip dec); simpl; exact Hq.
Qed.

Lemma in_update_where_id j f t r' :
  In r' (Queue.update_where_id j f t) ->
  exists r, In r t /\ r' = if JobRow.id r =? j then f r else r.
Proof.
  unfold Queue.update_where_id. intros Hin.
  apply List.in_map_iff in Hin as (r & <- & Hr). eauto.
Qed.

(** The table after [poll]: nothing when it claimed nothing, otherwise the
    claim followed by [complete] or [fail] of the claimed id. *)
Lemma poll_queue now_claim now_cache now_resolve w :
  match Queue.dequeue now_claim (queue w) with
  | (Some job, q) =>
      queue (snd (poll config env now_claim now_cache now_resolve w)) =
        Queue.complete now_resolve (Job.id job) q \/
      exists e,
        queue (snd (poll config env now_claim now_cache now_resolve w)) =
          Queue.fail_default now_resolve (Job.id job) e q
  | (None, q) =>
      poll config env now_claim now_cache now_resolve w
        = (POLL_INTERVAL_MS, w)
  end.
Proof.
  unfold poll. destruct (Queue.dequeue now_claim (queue w)) as [[job|] q] eqn:Hd.
  - pose proof (processJob_queue now_cache job (with_queue q w)) as Hq.
    destruct (processJob config env now_cache job (with_queue q w))
      as [[u|e] w1]; simpl in *; rewrite Hq; eauto.
  - apply dequeue_none in Hd as [-> _]. now rewrite with_queue_same.
Qed.

(** X7.  [poll] resolves what it claims: from a table in which no job is
    [processing], whatever the collaborators answer, [poll] ends with a
    table in which no job is [processing]. *)
Theorem poll_leaves_no_job_processing now_claim now_cache now_resolve w :
  (forall r, In r (queue w) -> JobRow.status r <> processing) ->
  forall r,
    In r (queue (snd (poll config env now_claim now_cache now_resolve w))) ->
    JobRow.status r <> processing.
Proof.
  intros Hno r'.
  pose proof (poll_queue now_claim now_cache now_resolve w) as Hpoll.
  destruct (Queue.dequeue now_claim (queue w)) as [[job|] q] eqn:Hd.
  - apply dequeue_some in Hd as (row & _ & _ & _ & -> & ->). simpl in Hpoll.
    assert (forall g,
              (forall x, JobRow.status (g x) <> processing) ->
              In r' (Queue.update_where_id (JobRow.id row) g
                       (Queue.update_where_id (JobRow.id row)
                          (Queue.claim_row now_claim) (queue w))) ->
              JobRow.status r' <> processing) as Hres.
    { intros g Hg Hin.
      apply in_update_where_id in Hin as (r1 & Hin1 & ->).
      apply in_update_where_id in Hin1 as (r0 & Hin0 & ->).
      destruct (JobRow.id r0 =? JobRow.id row) eqn:E.
      - rewrite claim_row_id, E. apply Hg.
      - rewrite E. now apply Hno. }
    destruct Hpoll as [-> | [e ->]].
    + apply Hres. intros x. simpl. discriminate.
    + unfold Queue.fail_default, Queue.fail.
      destruct (_ <? _); apply Hres; intros x; simpl; discriminate.
  - rewrite Hpoll. simpl. apply Hno.
Qed.

(** X8.  [poll] waits only when it has nothing to do: with no pending job it
    changes neither table, makes no call and asks for the next run after
    [POLL_INTERVAL_MS]; with a pending job it asks for the next run at
    once. *)
Theorem poll_waits_only_when_idle now_claim now_cache now_resolve w :
  ((forall r, In r (queue w) -> JobRow.status r <> pending) ->
   poll config env now_claim now_cache now_resolve w = (1000, w)) /\
  ((exists r, In r (queue w) /\ JobRow.status r = pending) ->
   fst (poll config env now_claim now_cache now_resolve w) = 0).
Proof.
  split.
  - intros Hno.
    pose proof (poll_queue now_claim now_cache now_resolve w) as Hpoll.
    destruct (Queue.dequeue now_claim (queue w)) as [[job|] q] eqn:Hd;
      [|exact Hpoll].
    apply dequeue_some in Hd as (row & Hin & Hp & _). exfalso.
    now apply (Hno row).
  - intros Hsome.
    destruct (dequeue_total now_claim (queue w) Hsome) as (job & q & Hd).
    unfold poll. rewrite Hd.
    destruct (processJob config env now_cache job (with_queue q w))
      as [[u|e] w1]; reflexivity.
Qed.

(** X9.  When the category listing cannot be fetched, [poll] makes no other
    call and writes nothing to the cache; the claimed job gets the message
    as its error and is [pending] again while it has been claimed fewer than
    three times, [failed] otherwise. *)
Theorem failed_category_fetch_is_retried now_claim now_cache now_resolve w
    job q e :
  getCategories env = Throw e ->
  Queue.unique_ids (queue w) ->
  Queue.dequeue now_claim (queue w) = (Some job, q) ->
  let w' := snd (poll config env now_claim now_cache now_resolve w) in
  cache w' = cache w /\
  calls w' = calls w ++ [CallGetCategories] /\
  exists r,
    Queue.select_by_id (Job.id job) (queue w') = Some r /\
    JobRow.status r = (if Job.attempts job <? 3 then pending else failed) /\
    JobRow.error r = Some e /\
    JobRow.attempts r = Job.attempts job.
Proof.
  intros Hcat Hu Hd w'. subst w'.
  unfold poll, processJob, decideCategory, bind, call. rewrite Hd, Hcat.
  simpl. split; [reflexivity|]. split; [reflexivity|].
  apply dequeue_some in Hd as (row & Hin & _ & _ & -> & ->). simpl.
  assert (Queue.select_by_id (JobRow.id row)
            (Queue.update_where_id (JobRow.id row)
               (Queue.claim_row now_claim) (queue w))
          = Some (Queue.claim_row now_claim row)) as Hq.
  { rewrite select_by_id_update by apply claim_row_id.
    now rewrite Z.eqb_refl, (unique_select _ row Hu Hin). }
  unfold Queue.fail_default, Queue.fail. rewrite Hq. simpl.
  destruct (JobRow.attempts row + 1 <? 3);
    rewrite select_by_id_update by apply set_status_error_id;
    rewrite Z.eqb_refl, Hq; simpl; eexists; split; try reflexivity; auto.
Qed.

End WorkerFurther.

Lemma poll_leaves_no_job_processing_witness :
  JobRow.status
    (Queue.set_status completed 52
       (Queue.claim_row 50 (sample_row 1 pending 0 10))) <> processing.
Proof.
  apply (poll_leaves_no_job_processing sample_config
           (sample_env [Category.mk "7" EmptyString] "Dining") 50 51 52
           (sample_world sample_queue ∅)).
  - intros r [<- | [<- | []]]; discriminate.
  - left. reflexivity.
Defined.

Lemma poll_waits_only_when_idle_witness :
  Worker.poll sample_config (sample_env sample_categories "Dining") 50 51 52
    (sample_world [sample_row 1 completed 1 10] ∅) =
    (1000, sample_world [sample_row 1 completed 1 10] ∅) /\
  fst (Worker.poll sample_config (sample_env sample_categories "Dining") 50 51 52
         (sample_world sample_queue ∅)) = 0.
Proof.
  split.
  - destruct (poll_waits_only_when_idle sample_config
                (sample_env sample_categories "Dining") 50 51 52
                (sample_world [sample_row 1 completed 1 10] ∅)) as (Hidle & _).
    apply Hidle. intros r [<- | []]. discriminate.
  - destruct (poll_waits_only_when_idle sample_config
                (sample_env sample_categories "Dining") 50 51 52
                (sample_world sample_queue ∅)) as (_ & Hbusy).
    apply Hbusy. exists (sample_row 1 pending 0 10).
    split; [left|]; reflexivity.
Defined.

Lemma failed_category_fetch_is_retried_witness :
  calls
    (snd (Worker.poll sample_config
            {| getCategories := Throw "Failed to fetch categories";
               getRecentTransactionsByMerchant_step2 := Ok [];
               searchMerchant := None;
               getRecentTransactionsByMerchant_step3 := Ok [];
               chat_send := Ok "Dining";
               updateTransaction := Ok tt |} 50 51 52
            (sample_world sample_queue sample_cache))) =
  [] ++ [CallGetCategories].
Proof.
  destruct (failed_category_fetch_is_retried sample_config
              {| getCategories := Throw "Failed to fetch categories";
                 getRecentTransactionsByMerchant_step2 := Ok [];
                 searchMerchant := None;
                 getRecentTransactionsByMerchant_step3 := Ok [];
                 chat_send := Ok "Dining";
                 updateTransaction := Ok tt |} 50 51 52
              (sample_world sample_queue sample_cache)
              (sample_job 1 None 10) (snd (Queue.dequeue 50 sample_queue))
              "Failed to fetch categories")
    as (_ & Hcalls & _).
  - reflexivity.
  - exact sample_queue_unique.
  - reflexivity.
  - exact Hcalls.
Defined.

Section ApplyingTheDecision.
Context `{StringOps}.
Variable config : Config.
Variable env : Collaborators.
Import Worker.

Lemma existsb_eqb_In tag (l : list string) :
  List.existsb (String.eqb tag) l = true <-> In tag l.
Proof.
  rewrite List.existsb_exists. split.
  - intros (x & Hin & Heq). apply String.eqb_eq in Heq. now subst.
  - intros Hin. exists tag. split; [exact Hin | apply String.eqb_refl].
Qed.

(** X10.  [updateTransactionCategory] makes one call, with the existing tags
    in their order followed by the configured tag when it is not among them
    and by nothing when it is: the tag is always sent, never added twice,
    and tagging again changes nothing. *)
Theorem update_sends_the_tag_once transactionId categoryId existingTags w :
  let tag := firefly_tag config in
  let sent := Firefly.tags_to_send tag existingTags in
  updateTransactionCategory config env transactionId categoryId existingTags w
    = (updateTransaction env,
       log_call (CallUpdateTransaction transactionId categoryId sent) w) /\
  In tag sent /\
  (In tag existingTags -> sent = existingTags) /\
  (~ In tag existingTags -> sent = existingTags ++ [tag]) /\
  Firefly.tags_to_send tag sent = sent.
Proof.
  intros tag sent. subst sent. unfold Firefly.tags_to_send.
  split; [reflexivity|].
  destruct (List.existsb (String.eqb tag) existingTags) eqn:E.
  - pose proof (proj1 (existsb_eqb_In tag existingTags) E) as Hin.
    split; [exact Hin|]. split; [reflexivity|].
    split; [contradiction|]. now rewrite E.
  - assert (~ In tag existingTags) as Hnot.
    { intros Hin. apply existsb_eqb_In in Hin. congruence. }
    split; [apply List.in_or_app; right; now left|].
    split; [contradiction|]. split; [reflexivity|].
    assert (List.existsb (String.eqb tag) (existingTags ++ [tag]) = true)
      as ->; [|reflexivity].
    apply existsb_eqb_In, List.in_or_app. right. now left.
Qed.

(** X11.  When [poll] claims a job and the decision is not [skip], it makes
    exactly one more call, the update of the job's transaction with the
    category id of the decision and the job's tags with the configured tag;
    the job is resolved by [complete] when the update succeeds and by [fail]
    with its message when it throws, and in both cases the cache stays as
    the decision left it. *)
Theorem poll_applies_the_decision now_claim now_cache now_resolve w job q
    dec w1 :
  Queue.dequeue now_claim (queue w) = (Some job, q) ->
  decideCategory config env now_cache (Job.merchantName job)
    (Job.description job) (Job.amount job) (with_queue q w) = (Ok dec, w1) ->
  is_skip dec = false ->
  let w' := snd (poll config env now_claim now_cache now_resolve w) in
  calls w' =
    calls w1 ++
    [CallUpdateTransaction (Job.transactionId job) (decision_categoryId dec)
       (Firefly.tags_to_send (firefly_tag config) (Job.tags job))] /\
  cache w' = cache w1 /\
  queue w' =
    match updateTransaction env with
    | Ok _ => Queue.complete now_resolve (Job.id job) q
    | Throw e => Queue.fail_default now_resolve (Job.id job) e q
    end.
Proof.
  intros Hd Hdec Hskip w'. subst w'.
  pose proof (decideCategory_extends config env now_cache
                (Job.merchantName job) (Job.description job) (Job.amount job)
                (with_queue q w)) as [Hq _].
  rewrite Hdec in Hq. simpl in Hq.
  unfold poll, processJob, bind, ret, updateTransactionCategory, call.
  rewrite Hd, Hdec, Hskip.
  destruct (updateTransaction env) as [u|e]; simpl; rewrite Hq;
    repeat split.
Qed.

End ApplyingTheDecision.

Lemma update_sends_the_tag_once_witness :
  Firefly.tags_to_send "AI categorized" ["food"; "AI categorized"] =
    ["food"; "AI categorized"] /\
  Firefly.tags_to_send "AI categorized" ["food"] = ["food"] ++ ["AI categorized"].
Proof.
  split.
  - destruct (update_sends_the_tag_once sample_config
                (sample_env sample_categories "Dining") "tx" "2"
                ["food"; "AI categorized"] (sample_world [] ∅))
      as (_ & _ & Hin & _).
    apply Hin. right. left. reflexivity.
  - destruct (update_sends_the_tag_once sample_config
                (sample_env sample_categories "Dining") "tx" "2"
                ["food"] (sample_world [] ∅))
      as (_ & _ & _ & Hnot & _).
    apply Hnot. intros [Heq | []]. discriminate Heq.
Defined.

Lemma poll_applies_the_decision_witness :
  cache
    (snd (Worker.poll sample_config (sample_env sample_categories "Dining")
            50 51 52 (sample_world sample_queue ∅))) =
  cache
    (snd (Worker.decideCategory sample_config
            (sample_env sample_categories "Dining") 51 "Cafe" "latte" "4.50"
            (with_queue (snd (Queue.dequeue 50 sample_queue))
               (sample_world sample_queue ∅)))).
Proof.
  destruct (poll_applies_the_decision sample_config
              (sample_env sample_categories "Dining") 50 51 52
              (sample_world sample_queue ∅) (sample_job 1 None 10)
              (snd (Queue.dequeue 50 sample_queue)) (llm "2" "Dining")
              (snd (Worker.decideCategory sample_config
                      (sample_env sample_categories "Dining") 51
                      "Cafe" "latte" "4.50"
                      (with_queue (snd (Queue.dequeue 50 sample_queue))
                         (sample_world sample_queue ∅)))))
    as (_ & Hcache & _).
  - reflexivity.
  - reflexivity.
  - reflexivity.
  - exact Hcache.
Defined.

(** ** The history analysis, further *)

Section HistoryFurther.
Import Worker.

Lemma truthy_opt_nonempty o :
  truthy_opt o = true -> exists s, o = Some s /\ s <> EmptyString.
Proof.
  destruct o as [s|]; simpl; [|discriminate]. unfold truthy.
  destruct (String.eqb s EmptyString) eqn:E; simpl; [discriminate|].
  intros _. exists s. split; [reflexivity|]. now apply String.eqb_neq.
Qed.

(** What [analyzeHistory] can return. *)
Lemma analyzeHistory_shape cached recentTxns :
  analyzeHistory cached recentTxns =
    from_cache (CachedCategory.categoryId cached)
      (CachedCategory.categoryName cached) \/
  exists tx i n,
    In tx recentTxns /\
    TransactionInfo.categoryId tx = Some i /\
    TransactionInfo.categoryName tx = Some n /\
    i <> EmptyString /\ n <> EmptyString /\
    n <> CachedCategory.categoryName cached /\
    analyzeHistory cached recentTxns = firefly_override i n.
Proof.
  unfold analyzeHistory.
  destruct (List.filter is_categorized recentTxns) as [|tx rest] eqn:Hf;
    [now left|].
  destruct (forallb _ (tx :: rest)) eqn:E1; [now left|].
  destruct (forallb (fun tx => negb _) (tx :: rest)) eqn:E2; [|now left].
  right.
  assert (In tx (List.filter is_categorized recentTxns)) as Hin
    by (rewrite Hf; now left).
  apply List.filter_In in Hin as [Hin Hcat].
  unfold is_categorized in Hcat. apply andb_true_iff in Hcat as [Hi Hn].
  apply truthy_opt_nonempty in Hi as (i & Hi & Hine).
  apply truthy_opt_nonempty in Hn as (n & Hn & Hnne).
  exists tx, i, n. rewrite Hi, Hn. simpl.
  repeat (split; [solve [auto]|]). split; [|reflexivity].
  simpl in E2. apply andb_true_iff in E2 as [E2 _].
  apply negb_true_iff, name_is_false in E2. congruence.
Qed.

(** X12.  [analyzeHistory] returns either the cached category, or an
    override whose id and name are those of a transaction of the history,
    both non-empty, the name being different from the cached name; it never
    returns [llm] or [skip]. *)
Theorem analyzeHistory_returns_cache_or_a_real_override cached recentTxns :
  match analyzeHistory cached recentTxns with
  | from_cache i n =>
      i = CachedCategory.categoryId cached /\
      n = CachedCategory.categoryName cached
  | firefly_override i n =>
      (exists tx, In tx recentTxns /\
                  TransactionInfo.categoryId tx = Some i /\
                  TransactionInfo.categoryName tx = Some n) /\
      i <> EmptyString /\ n <> EmptyString /\
      n <> CachedCategory.categoryName cached
  | llm _ _ | skip _ => False
  end.
Proof.
  destruct (analyzeHistory_shape cached recentTxns)
    as [-> | (tx & i & n & Hin & Hi & Hn & Hine & Hnne & Hdiff & ->)].
  - split; reflexivity.
  - split; [exists tx; auto | auto].
Qed.

(** X13.  A transaction without a category id or without a category name
    (missing or empty) has no influence on the decision, wherever it stands
    in the history. *)
Theorem uncategorized_transactions_are_ignored cached before tx after :
  is_categorized tx = false ->
  analyzeHistory cached (before ++ tx :: after) =
  analyzeHistory cached (before ++ after).
Proof.
  intros Hno. unfold analyzeHistory.
  rewrite !List.filter_app. simpl. now rewrite Hno.
Qed.

Lemma uncategorized_transactions_are_ignored_witness :
  analyzeHistory sample_cached
    ([sample_tx (Some "2") (Some "Dining")]
     ++ sample_tx (Some "1") None :: [sample_tx (Some "3") (Some "Fun")]) =
  analyzeHistory sample_cached
    ([sample_tx (Some "2") (Some "Dining")]
     ++ [sample_tx (Some "3") (Some "Fun")]).
Proof.
  apply (uncategorized_transactions_are_ignored sample_cached
           [sample_tx (Some "2") (Some "Dining")] (sample_tx (Some "1") None)
           [sample_tx (Some "3") (Some "Fun")]).
  reflexivity.
Defined.

End HistoryFurther.

(** ** The merchant cache *)

Section CacheFurther.

Lemma cache_get_set now m n i (c : Cache.merchant_categories) :
  Cache.get m (Cache.set now m n i c) =
  Some (CachedCategory.mk m n i
          (match Cache.get m c with
           | Some old => CachedCategory.createdAt old
           | None => now
           end) now).
Proof.
  unfold Cache.get, Cache.set.
  destruct (c !! m) as [row|]; rewrite lookup_insert_eq; reflexivity.
Qed.

Lemma cache_get_set_ne now m m' n i (c : Cache.merchant_categories) :
  m' <> m -> Cache.get m' (Cache.set now m n i c) = Cache.get m' c.
Proof.
  intros Hne. unfold Cache.get, Cache.set.
  destruct (c !! m) as [row|]; rewrite lookup_insert_ne by congruence;
    reflexivity.
Qed.

Lemma cache_get_updateFromOverride now m n i
    (c : Cache.merchant_categories) :
  Cache.get m (Cache.updateFromOverride now m n i c) =
  option_map
    (fun old => CachedCategory.mk m n i (CachedCategory.createdAt old) now)
    (Cache.get m c).
Proof.
  unfold Cache.get, Cache.updateFromOverride.
  rewrite lookup_alter_eq. destruct (c !! m) as [row|]; reflexivity.
Qed.

Lemma cache_get_updateFromOverride_ne now m m' n i
    (c : Cache.merchant_categories) :
  m' <> m ->
  Cache.get m' (Cache.updateFromOverride now m n i c) = Cache.get m' c.
Proof.
  intros Hne. unfold Cache.get, Cache.updateFromOverride.
  rewrite lookup_alter_ne by congruence. reflexivity.
Qed.

Lemma cache_get_invalidate m (c : Cache.merchant_categories) :
  Cache.get m (Cache.invalidate m c) = None.
Proof. unfold Cache.get, Cache.invalidate. now rewrite lookup_delete_eq. Qed.

Lemma cache_get_invalidate_ne m m' (c : Cache.merchant_categories) :
  m' <> m -> Cache.get m' (Cache.invalidate m c) = Cache.get m' c.
Proof.
  intros Hne. unfold Cache.get, Cache.invalidate.
  rewrite lookup_delete_ne by congruence. reflexivity.
Qed.

(** X14.  [set] followed by [get] of the same merchant returns the category
    name and id just written, with the creation time of the entry that was
    there, if any, and the current time otherwise; the entry of every other
    merchant is as before. *)
Theorem cache_set_then_get now m n i (c : Cache.merchant_categories) :
  Cache.get m (Cache.set now m n i c) =
    Some (CachedCategory.mk m n i
            (match Cache.get m c with
             | Some old => CachedCategory.createdAt old
             | None => now
             end) now) /\
  (forall m', m' <> m ->
     Cache.get m' (Cache.set now m n i c) = Cache.get m' c).
Proof.
  split; [apply cache_get_set|].
  intros m' Hne. now apply cache_get_set_ne.
Qed.

Lemma cache_set_then_get_witness :
  Cache.get "Shop" (Cache.set 50 "Cafe" "Dining" "2" sample_cache) =
  Cache.get "Shop" sample_cache.
Proof.
  destruct (cache_set_then_get 50 "Cafe" "Dining" "2" sample_cache)
    as (_ & Hother).
  apply Hother. discriminate.
Defined.

(** X15.  [updateFromOverride] only updates: for a merchant without an entry
    it changes nothing; for a merchant with an entry, [get] then returns the
    new name and id with the old creation time; other merchants are not
    touched. *)
Theorem updateFromOverride_only_updates now m n i
    (c : Cache.merchant_categories) :
  (Cache.get m c = None -> Cache.updateFromOverride now m n i c = c) /\
  (forall old, Cache.get m c = Some old ->
     Cache.get m (Cache.updateFromOverride now m n i c) =
       Some (CachedCategory.mk m n i (CachedCategory.createdAt old) now)) /\
  (forall m', m' <> m ->
     Cache.get m' (Cache.updateFromOverride now m n i c) = Cache.get m' c).
Proof.
  split; [|split].
  - unfold Cache.get, Cache.updateFromOverride. intros Hnone.
    apply map_eq. intros k. destruct (decide (k = m)) as [->|Hne].
    + rewrite lookup_alter_eq. destruct (c !! m); [discriminate|reflexivity].
    + now rewrite lookup_alter_ne by congruence.
  - intros old Hold. rewrite cache_get_updateFromOverride, Hold. reflexivity.
  - intros m' Hne. now apply cache_get_updateFromOverride_ne.
Qed.

Lemma updateFromOverride_only_updates_witness :
  Cache.updateFromOverride 50 "Shop" "Dining" "2" sample_cache = sample_cache
  /\
  Cache.get "Cafe" (Cache.updateFromOverride 50 "Cafe" "Dining" "2"
                      sample_cache) =
    Some (CachedCategory.mk "Cafe" "Dining" "2" 10 50).
Proof.
  split.
  - destruct (updateFromOverride_only_updates 50 "Shop" "Dining" "2"
                sample_cache) as (Hnone & _).
    apply Hnone. reflexivity.
  - destruct (updateFromOverride_only_updates 50 "Cafe" "Dining" "2"
                sample_cache) as (_ & Hsome & _).
    apply (Hsome (CachedCategory.mk "Cafe" "Groceries" "1" 10 10)).
    reflexivity.
Defined.

(** X16.  [invalidate] removes the entry of the merchant and no other; it
    changes nothing when there is none, so it can be repeated; a [set]
    after it starts a new entry, created at the time of the [set]. *)
Theorem invalidate_removes_one_entry now m n i
    (c : Cache.merchant_categories) :
  Cache.get m (Cache.invalidate m c) = None /\
  (forall m', m' <> m ->
     Cache.get m' (Cache.invalidate m c) = Cache.get m' c) /\
  (Cache.get m c = None -> Cache.invalidate m c = c) /\
  Cache.invalidate m (Cache.invalidate m c) = Cache.invalidate m c /\
  Cache.get m (Cache.set now m n i (Cache.invalidate m c)) =
    Some (CachedCategory.mk m n i now now).
Proof.
  split; [apply cache_get_invalidate|]. split; [|split; [|split]].
  - intros m' Hne. now apply cache_get_invalidate_ne.
  - unfold Cache.get, Cache.invalidate. intros Hnone.
    apply delete_id. destruct (c !! m); [discriminate|reflexivity].
  - unfold Cache.invalidate. apply delete_id, lookup_delete_eq.
  - rewrite cache_get_set, cache_get_invalidate. reflexivity.
Qed.

Lemma invalidate_removes_one_entry_witness :
  Cache.get "Shop" (Cache.invalidate "Cafe" sample_cache) =
    Cache.get "Shop" sample_cache /\
  Cache.invalidate "Shop" sample_cache = sample_cache.
Proof.
  destruct (invalidate_removes_one_entry 50 "Cafe" "Dining" "2" sample_cache)
    as (_ & Hother & _).
  destruct (invalidate_removes_one_entry 50 "Shop" "Dining" "2" sample_cache)
    as (_ & _ & Hnone & _).
  split; [apply Hother; discriminate | apply Hnone; reflexivity].
Defined.

End CacheFurther.

(** ** The decision engine, further *)

Section DecisionFurther.
Context `{StringOps}.
Variable config : Config.
Variable env : Collaborators.
Import Worker.

(** The outcomes of the model-assisted path. *)
Lemma decideCategory_llm_cases now categories m d a w :
  (exists e w',
     decideCategory_llm config env now categories m d a w = (Throw e, w') /\
     cache w' = cache w) \/
  (exists reason w',
     decideCategory_llm config env now categories m d a w
       = (Ok (skip reason), w') /\
     cache w' = cache w) \/
  (exists c w',
     In c categories /\
     decideCategory_llm config env now categories m d a w
       = (Ok (llm (Category.id c) (Category.name c)), w') /\
     cache w' = Cache.set now m (Category.name c) (Category.id c) (cache w)).
Proof.
  destruct (getRecentTransactionsByMerchant_step3 env) as [txns|e] eqn:Htx.
  - destruct (chat_send env) as [content|e] eqn:Hchat.
    + rewrite (decideCategory_llm_answered config env now categories m d a w
                 txns content Htx Hchat). cbv zeta.
      destruct (truthy_value _) as [name|];
        [|right; left; eauto].
      destruct (List.find _ categories) as [c|] eqn:Hfind;
        [|right; left; eauto].
      right. right. apply List.find_some in Hfind as [Hin _].
      exists c. eexists. split; [exact Hin|]. split; reflexivity.
    + left. apply decideCategory_llm_throws. right. eauto.
  - left. apply decideCategory_llm_throws. left. eauto.
Qed.

(** The paths of [decideCategory] once the categories are fetched. *)
Lemma decideCategory_cases now m d a w categories :
  getCategories env = Ok categories ->
  let w1 := log_call CallGetCategories w in
  let w2 :=
    log_call (CallGetRecentTransactionsByMerchant m
                (firefly_historyLimit config)) w1 in
  (categories = [] /\
   decideCategory config env now m d a w =
     (Ok (skip "No categories configured in Firefly"), w1)) \/
  (categories <> [] /\ Cache.get m (cache w) = None /\
   decideCategory config env now m d a w =
     decideCategory_llm config env now categories m d a w1) \/
  (exists cached,
     categories <> [] /\ Cache.get m (cache w) = Some cached /\
     ((category_id_exists categories (CachedCategory.categoryId cached)
         = false /\
       decideCategory config env now m d a w =
         decideCategory_llm config env now categories m d a
           (with_cache (Cache.invalidate m (cache w)) w1)) \/
      (category_id_exists categories (CachedCategory.categoryId cached)
         = true /\
       ((exists e,
           decideCategory config env now m d a w = (Throw e, w2)) \/
        decideCategory config env now m d a w =
          (Ok (from_cache (CachedCategory.categoryId cached)
                 (CachedCategory.categoryName cached)), w2) \/
        (exists i n,
           category_id_exists categories i = true /\
           decideCategory config env now m d a w =
             (Ok (firefly_override i n),
              with_cache (Cache.updateFromOverride now m n i (cache w)) w2))
        \/
        decideCategory config env now m d a w =
          decideCategory_llm config env now categories m d a w2)))).
Proof.
  intros Hcat w1 w2.
  destruct categories as [|c0 cs] eqn:Hcs.
  - left. split; [reflexivity|]. now apply decideCategory_no_categories.
  - right. rewrite <- Hcs in *.
    assert (categories <> []) as Hne by (rewrite Hcs; discriminate).
    clear Hcs.
    destruct (Cache.get m (cache w)) as [cached|] eqn:Hget.
    + right. exists cached. split; [exact Hne|]. split; [reflexivity|].
      unfold decideCategory, bind, call, cache_get, on_cache, ret.
      rewrite Hcat, (length_test _ Hne). simpl. rewrite Hget.
      destruct (category_id_exists categories
                  (CachedCategory.categoryId cached)) eqn:Hvalid; simpl.
      * right. split; [reflexivity|].
        destruct (getRecentTransactionsByMerchant_step2 env) as [txns|e];
          [|left; eauto].
        destruct (analyzeHistory_shape cached txns)
          as [-> | (tx & i & n & _ & _ & _ & _ & _ & _ & ->)].
        -- right. left. reflexivity.
        -- destruct (category_id_exists categories i) eqn:Hi.
           ++ right. right. left. exists i, n. split; [exact Hi|]. reflexivity.
           ++ right. right. right. reflexivity.
      * left. split; reflexivity.
    + left. split; [exact Hne|]. split; [reflexivity|].
      now apply decideCategory_on_miss.
Qed.

Lemma category_id_exists_in categories c :
  In c categories -> category_id_exists categories (Category.id c) = true.
Proof.
  intros Hin. unfold category_id_exists. apply List.existsb_exists.
  exists c. split; [exact Hin | apply String.eqb_refl].
Qed.

(** What a decision that is not [skip] guarantees. *)
Lemma decision_is_sound now m d a w categories dec w' :
  getCategories env = Ok categories ->
  decideCategory config env now m d a w = (Ok dec, w') ->
  is_skip dec = false ->
  category_id_exists categories (decision_categoryId dec) = true /\
  exists entry,
    Cache.get m (cache w') = Some entry /\
    CachedCategory.categoryId entry = decision_categoryId dec /\
    CachedCategory.categoryName entry = decision_categoryName dec.
Proof.
  intros Hcat Hdec Hskip.
  assert (forall w0,
            decideCategory_llm config env now categories m d a w0
              = (Ok dec, w') ->
            category_id_exists categories (decision_categoryId dec) = true /\
            exists entry,
              Cache.get m (cache w') = Some entry /\
              CachedCategory.categoryId entry = decision_categoryId dec /\
              CachedCategory.categoryName entry = decision_categoryName dec)
    as Hllm.
  { intros w0 Hrun.
    destruct (decideCategory_llm_cases now categories m d a w0)
      as [(e & w3 & Heq & _) | [(r & w3 & Heq & _) | (c & w3 & Hin & Heq & Hc)]];
      rewrite Heq in Hrun; inversion Hrun; subst; clear Hrun;
      [discriminate Hskip|].
    simpl. split; [now apply category_id_exists_in|].
    rewrite Hc, cache_get_set. eexists. split; [reflexivity|]. auto. }
  destruct (decideCategory_cases now m d a w categories Hcat)
    as [[_ Heq] | [(_ & _ & Heq) | (cached & _ & Hget & Hrest)]].
  - rewrite Heq in Hdec. inversion Hdec; subst. discriminate Hskip.
  - rewrite Heq in Hdec. now apply (Hllm _ Hdec).
  - destruct Hrest as [[_ Heq] | [Hvalid Hrest]].
    + rewrite Heq in Hdec. now apply (Hllm _ Hdec).
    + destruct Hrest as [[e Heq] | [Heq | [(i & n & Hi & Heq) | Heq]]];
        rewrite Heq in Hdec.
      * discriminate Hdec.
      * inversion Hdec; subst; clear Hdec. simpl.
        split; [exact Hvalid|].
        exists cached. split; [exact Hget|]. auto.
      * inversion Hdec; subst; clear Hdec. simpl.
        split; [exact Hi|].
        rewrite cache_get_updateFromOverride, Hget. simpl.
        eexists. split; [reflexivity|]. auto.
      * now apply (Hllm _ Hdec).
Qed.

(** X17.  Every category id that [decideCategory] decides on is the id of a
    category of the list fetched at its start, whether the decision comes
    from the cache, from an override or from the model. *)
Theorem decided_category_is_listed now m d a w categories dec :
  getCategories env = Ok categories ->
  fst (decideCategory config env now m d a w) = Ok dec ->
  is_skip dec = false ->
  category_id_exists categories (decision_categoryId dec) = true.
Proof.
  intros Hcat Hdec Hskip.
  destruct (decideCategory config env now m d a w) as [r w'] eqn:Hrun.
  simpl in Hdec. subst r.
  now apply (decision_is_sound now m d a w categories dec w' Hcat Hrun Hskip).
Qed.

(** X18.  After a decision that is not [skip], the cache entry of the
    merchant holds the category id and name of the decision. *)
Theorem cache_agrees_with_the_decision now m d a w categories dec :
  getCategories env = Ok categories ->
  fst (decideCategory config env now m d a w) = Ok dec ->
  is_skip dec = false ->
  exists entry,
    Cache.get m (cache (snd (decideCategory config env now m d a w)))
      = Some entry /\
    CachedCategory.categoryId entry = decision_categoryId dec /\
    CachedCategory.categoryName entry = decision_categoryName dec.
Proof.
  intros Hcat Hdec Hskip.
  destruct (decideCategory config env now m d a w) as [r w'] eqn:Hrun.
  simpl in Hdec. subst r. simpl.
  now apply (decision_is_sound now m d a w categories dec w' Hcat Hrun Hskip).
Qed.

End DecisionFurther.

Lemma decided_category_is_listed_witness :
  category_id_exists sample_categories
    (Worker.decision_categoryId (from_cache "1" "Groceries")) = true.
Proof.
  apply (decided_category_is_listed sample_config
           (sample_env sample_categories "Dining") 50 "Cafe" "latte" "4.50"
           (sample_world [] sample_cache) sample_categories
           (from_cache "1" "Groceries")); reflexivity.
Defined.

Lemma cache_agrees_with_the_decision_witness :
  exists entry,
    Cache.get "Shop"
      (cache (snd (Worker.decideCategory sample_config
                     (sample_env sample_categories "Dining") 50
                     "Shop" "meal" "9.00" (sample_world [] sample_cache))))
      = Some entry /\
    CachedCategory.categoryId entry = Worker.decision_categoryId (llm "2" "Dining") /\
    CachedCategory.categoryName entry =
      decision_categoryName (llm "2" "Dining").
Proof.
  apply (cache_agrees_with_the_decision sample_config
           (sample_env sample_categories "Dining") 50 "Shop" "meal" "9.00"
           (sample_world [] sample_cache) sample_categories
           (llm "2" "Dining")); reflexivity.
Defined.

Section DecisionEffects.
Context `{StringOps}.
Variable config : Config.
Variable env : Collaborators.
Import Worker.

(** The cache after [decideCategory], by kind of result. *)
Lemma decideCategory_cache now m d a w :
  let r := decideCategory config env now m d a w in
  ((forall i n, fst r <> Ok (firefly_override i n)) /\
   (forall i n, fst r <> Ok (llm i n)) /\
   cache (snd r) = cache w) \/
  ((forall dec, fst r = Ok dec -> is_skip dec = true) /\
   cache (snd r) = Cache.invalidate m (cache w)) \/
  (exists i n,
     fst r = Ok (firefly_override i n) /\
     cache (snd r) = Cache.updateFromOverride now m n i (cache w)) \/
  (exists i n,
     fst r = Ok (llm i n) /\
     (cache (snd r) = Cache.set now m n i (cache w) \/
      cache (snd r) = Cache.set now m n i (Cache.invalidate m (cache w)))).
Proof.
  intros r. subst r.
  assert (forall w0 c0,
            cache w0 = c0 ->
            let r := decideCategory_llm config env now
                       (match getCategories env with
                        | Ok l => l | Throw _ => [] end) m d a w0 in
            ((forall i n, fst r <> Ok (firefly_override i n)) /\
             (forall i n, fst r <> Ok (llm i n)) /\
             (forall dec, fst r = Ok dec -> is_skip dec = true) /\
             cache (snd r) = c0) \/
            (exists i n, fst r = Ok (llm i n) /\
                         cache (snd r) = Cache.set now m n i c0)) as Hllm.
  { intros w0 c0 Hc0 r. subst r.
    destruct (decideCategory_llm_cases config env now
                (match getCategories env with Ok l => l | Throw _ => [] end)
                m d a w0)
      as [(e & w3 & -> & Hc) | [(r & w3 & -> & Hc) | (c & w3 & _ & -> & Hc)]];
      simpl.
    - left. repeat split; try discriminate. congruence.
    - left. repeat split; try discriminate; [|congruence].
      now intros dec [= <-].
    - right. exists (Category.id c), (Category.name c).
      split; [reflexivity | congruence]. }
  destruct (getCategories env) as [categories|e] eqn:Hcat.
  - destruct (decideCategory_cases config env now m d a w categories Hcat)
      as [[_ ->] | [(_ & _ & ->) | (cached & _ & Hget & Hrest)]].
    + left. simpl. repeat split; discriminate.
    + destruct (Hllm (log_call CallGetCategories w) (cache w) eq_refl)
        as [(H1 & H2 & _ & H4) | (i & n & H1 & H2)].
      * left. auto.
      * right. right. right. exists i, n. auto.
    + destruct Hrest as [[_ ->] | [_ Hrest]].
      * destruct (Hllm (with_cache (Cache.invalidate m (cache w))
                          (log_call CallGetCategories w))
                    (Cache.invalidate m (cache w)) eq_refl)
          as [(_ & _ & H3 & H4) | (i & n & H1 & H2)].
        -- right. left. auto.
        -- right. right. right. exists i, n. auto.
      * destruct Hrest as [[e ->] | [-> | [(i & n & _ & ->) | ->]]].
        -- left. simpl. repeat split; discriminate.
        -- left. simpl. repeat split; discriminate.
        -- right. right. left. exists i, n. split; reflexivity.
        -- destruct (Hllm (log_call
                             (CallGetRecentTransactionsByMerchant m
                                (firefly_historyLimit config))
                             (log_call CallGetCategories w))
                       (cache w) eq_refl)
             as [(H1 & H2 & _ & H4) | (i & n & H1 & H2)].
           ++ left. auto.
           ++ right. right. right. exists i, n. auto.
  - left. unfold decideCategory, bind, call. rewrite Hcat. simpl.
    repeat split; discriminate.
Qed.

(** X19.  A decision touches no cache entry but the one of its merchant,
    whatever the collaborators answer and however it ends. *)
Theorem decision_touches_only_its_merchant now m d a w m' :
  m' <> m ->
  Cache.get m' (cache (snd (decideCategory config env now m d a w))) =
  Cache.get m' (cache w).
Proof.
  intros Hne.
  destruct (decideCategory_cache now m d a w)
    as [(_ & _ & ->) | [(_ & ->) | [(i & n & _ & ->) | (i & n & _ & [-> | ->])]]].
  - reflexivity.
  - now apply cache_get_invalidate_ne.
  - now apply cache_get_updateFromOverride_ne.
  - now apply cache_get_set_ne.
  - rewrite cache_get_set_ne by exact Hne. now apply cache_get_invalidate_ne.
Qed.

(** X20.  When [decideCategory] throws or decides [skip], it has written no
    entry: the cache is as it was, or as it was without the entry of the
    merchant (the entry found stale before the model-assisted path). *)
Theorem no_entry_is_written_without_a_category now m d a w :
  (forall dec, fst (decideCategory config env now m d a w) = Ok dec ->
               is_skip dec = true) ->
  cache (snd (decideCategory config env now m d a w)) = cache w \/
  cache (snd (decideCategory config env now m d a w)) =
    Cache.invalidate m (cache w).
Proof.
  intros Hskip.
  destruct (decideCategory_cache now m d a w)
    as [(_ & _ & Hc) | [(_ & Hc) | [(i & n & Hr & _) | (i & n & Hr & _)]]].
  - now left.
  - now right.
  - specialize (Hskip _ Hr). discriminate.
  - specialize (Hskip _ Hr). discriminate.
Qed.

(** X21.  A decision taken from the cache or from an override costs two
    calls, the category listing and one history fetch: the merchant search
    and the model are not called. *)
Theorem cache_hit_calls_no_model now m d a w dec :
  fst (decideCategory config env now m d a w) = Ok dec ->
  is_model_path_decision dec = false ->
  calls (snd (decideCategory config env now m d a w)) =
  calls w ++
  [CallGetCategories;
   CallGetRecentTransactionsByMerchant m (firefly_historyLimit config)].
Proof.
  intros Hdec Hkind.
  assert (forall categories w0,
            fst (decideCategory_llm config env now categories m d a w0)
              <> Ok dec) as Hllm.
  { intros categories w0 Heq.
    apply decideCategory_llm_decision in Heq. congruence. }
  destruct (getCategories env) as [categories|e] eqn:Hcat.
  - destruct (decideCategory_cases config env now m d a w categories Hcat)
      as [[_ Heq] | [(_ & _ & Heq) | (cached & _ & _ & Hrest)]].
    + rewrite Heq in Hdec. simpl in Hdec. injection Hdec as <-.
      discriminate Hkind.
    + rewrite Heq in Hdec. now apply Hllm in Hdec.
    + destruct Hrest as [[_ Heq] | [_ Hrest]].
      * rewrite Heq in Hdec. now apply Hllm in Hdec.
      * destruct Hrest as [[e Heq] | [Heq | [(i & n & _ & Heq) | Heq]]];
          rewrite Heq in *; simpl in *.
        -- discriminate Hdec.
        -- now rewrite <- List.app_assoc.
        -- now rewrite <- List.app_assoc.
        -- now apply Hllm in Hdec.
  - unfold decideCategory, bind, call in Hdec. rewrite Hcat in Hdec.
    discriminate Hdec.
Qed.

End DecisionEffects.

Lemma decision_touches_only_its_merchant_witness :
  Cache.get "Cafe"
    (cache (snd (Worker.decideCategory sample_config
                   (sample_env sample_categories "Dining") 50
                   "Shop" "meal" "9.00" (sample_world [] sample_cache)))) =
  Cache.get "Cafe" (cache (sample_world [] sample_cache)).
Proof.
  apply (decision_touches_only_its_merchant sample_config
           (sample_env sample_categories "Dining") 50 "Shop" "meal" "9.00"
           (sample_world [] sample_cache) "Cafe").
  discriminate.
Defined.

Lemma no_entry_is_written_without_a_category_witness :
  cache (snd (Worker.decideCategory sample_config
                (sample_env sample_categories "Utilities") 50
                "Shop" "meal" "9.00" (sample_world [] sample_cache))) =
    cache (sample_world [] sample_cache) \/
  cache (snd (Worker.decideCategory sample_config
                (sample_env sample_categories "Utilities") 50
                "Shop" "meal" "9.00" (sample_world [] sample_cache))) =
    Cache.invalidate "Shop" (cache (sample_world [] sample_cache)).
Proof.
  apply (no_entry_is_written_without_a_category sample_config
           (sample_env sample_categories "Utilities") 50 "Shop" "meal" "9.00"
           (sample_world [] sample_cache)).
  intros dec [= <-]. reflexivity.
Defined.

Lemma cache_hit_calls_no_model_witness :
  calls (snd (Worker.decideCategory sample_config
                (sample_env sample_categories "Dining") 50
                "Cafe" "latte" "4.50" (sample_world [] sample_cache))) =
  calls (sample_world [] sample_cache) ++
  [CallGetCategories; CallGetRecentTransactionsByMerchant "Cafe" 5].
Proof.
  apply (cache_hit_calls_no_model sample_config
           (sample_env sample_categories "Dining") 50 "Cafe" "latte" "4.50"
           (sample_world [] sample_cache) (from_cache "1" "Groceries"));
    reflexivity.
Defined.

(** ** The response parser, further *)

Section ParserFurther.
Context `{StringOps}.

Lemma prefix_empty s : String.prefix EmptyString s = true.
Proof. destruct s; reflexivity. Qed.

Lemma includes_empty s : includes s EmptyString = true.
Proof. destruct s; reflexivity. Qed.

Lemma includes_unfold s sub :
  includes s sub =
  if String.prefix sub s then true
  else match s with
       | EmptyString => false
       | String _ s' => includes s' sub
       end.
Proof. destruct s; reflexivity. Qed.

Lemma prefix_append a s :
  String.prefix a s = true <-> exists post, s = (a ++ post)%string.
Proof.
  revert s. induction a as [|c a IH]; intros s.
  - rewrite prefix_empty. split; [intros _; now exists s | reflexivity].
  - destruct s as [|c' s]; simpl.
    + split; [discriminate | intros [post Hp]; discriminate].
    + destruct (Ascii.ascii_dec c c') as [->|Hne].
      * rewrite IH. split; intros [post Hp]; exists post.
        -- now subst s.
        -- simpl in Hp. now injection Hp.
      * split; [discriminate|]. intros [post Hp]. simpl in Hp.
        injection Hp as Hc _. congruence.
Qed.

(** X22.  [includes] is containment: [s.includes(sub)] holds exactly when
    [s] is some text, then [sub], then some text; so the partial match of
    [parseResponse] holds exactly when, in lower case, the category name
    occurs inside the reply or the reply inside the category name. *)
Theorem partial_match_is_containment cleaned c :
  (forall s sub,
     includes s sub = true <->
     exists pre post, s = (pre ++ sub ++ post)%string) /\
  (LLM.partial_match cleaned c = true <->
   (exists pre post,
      toLowerCase c = (pre ++ toLowerCase cleaned ++ post)%string) \/
   (exists pre post,
      toLowerCase cleaned = (pre ++ toLowerCase c ++ post)%string)).
Proof.
  assert (forall s sub,
            includes s sub = true <->
            exists pre post, s = (pre ++ sub ++ post)%string) as Hinc.
  { induction s as [|ch s IH]; intros sub.
    - rewrite includes_unfold.
      destruct (String.prefix sub EmptyString) eqn:E.
      + split; [intros _|reflexivity].
        apply prefix_append in E as [post Hp].
        exists EmptyString, post. exact Hp.
      + split; [discriminate|]. intros (pre & post & Hp).
        destruct pre; [|discriminate]. simpl in Hp.
        assert (String.prefix sub EmptyString = true) as E'
          by (apply prefix_append; eauto).
        congruence.
    - rewrite includes_unfold.
      destruct (String.prefix sub (String ch s)) eqn:E.
      + split; [intros _|reflexivity].
        apply prefix_append in E as [post Hp].
        exists EmptyString, post. exact Hp.
      + rewrite IH. split.
        * intros (pre & post & ->). exists (String ch pre), post. reflexivity.
        * intros (pre & post & Hp). destruct pre as [|ch' pre].
          -- simpl in Hp.
             assert (String.prefix sub (String ch s) = true) as E'
               by (apply prefix_append; eauto).
             congruence.
          -- simpl in Hp. injection Hp as _ ->. eauto. }
  split; [exact Hinc|].
  unfold LLM.partial_match. rewrite orb_true_iff, !Hinc. reflexivity.
Qed.

Lemma find_ext_pred {A} (f g : A -> bool) (l : list A) :
  (forall x, f x = g x) -> List.find f l = List.find g l.
Proof.
  intros Hfg. induction l as [|x l IH]; simpl; [reflexivity|].
  now rewrite Hfg, IH.
Qed.

(** X23.  The parser reads the reply up to case: two replies whose cleaned
    texts have the same lower case give the same category and the same
    confidence. *)
Theorem parseResponse_ignores_case content1 content2 validCategories :
  toLowerCase (strip_quotes (trim content1)) =
  toLowerCase (strip_quotes (trim content2)) ->
  LLMResponse.category (LLM.parseResponse content1 validCategories) =
    LLMResponse.category (LLM.parseResponse content2 validCategories) /\
  LLMResponse.confidence (LLM.parseResponse content1 validCategories) =
    LLMResponse.confidence (LLM.parseResponse content2 validCategories).
Proof.
  intros Hlow. unfold LLM.parseResponse.
  rewrite (find_ext_pred
             (LLM.exact_match (strip_quotes (trim content1)))
             (LLM.exact_match (strip_quotes (trim content2))))
    by (intros x; unfold LLM.exact_match; now rewrite Hlow).
  rewrite (find_ext_pred
             (LLM.partial_match (strip_quotes (trim content1)))
             (LLM.partial_match (strip_quotes (trim content2))))
    by (intros x; unfold LLM.partial_match; now rewrite Hlow).
  destruct (truthy_value (List.find (LLM.exact_match _) validCategories));
    [split; reflexivity|].
  destruct (truthy_value (List.find (LLM.partial_match _) validCategories));
    split; reflexivity.
Qed.

(** X24.  An empty reply is not rejected: when the cleaned reply is empty
    (and the lower case of the empty text is empty), every listed name
    contains it, so with a first name that is not empty the parser proposes
    a listed category; it is the first one, at medium confidence, when no
    listed name has an empty lower case. *)
Theorem empty_reply_proposes_a_category content c rest :
  strip_quotes (trim content) = EmptyString ->
  toLowerCase EmptyString = EmptyString ->
  c <> EmptyString ->
  (exists name,
     LLMResponse.category (LLM.parseResponse content (c :: rest)) = Some name
     /\ In name (c :: rest)) /\
  ((forall x, In x (c :: rest) -> toLowerCase x <> EmptyString) ->
   LLMResponse.category (LLM.parseResponse content (c :: rest)) = Some c /\
   LLMResponse.confidence (LLM.parseResponse content (c :: rest)) = medium).
Proof.
  intros Hclean Hlow Hc.
  assert (truthy_value
            (List.find (LLM.partial_match EmptyString) (c :: rest)) = Some c)
    as Hpartial.
  { simpl. unfold LLM.partial_match at 1. rewrite Hlow, includes_empty.
    simpl. unfold truthy. apply String.eqb_neq in Hc. now rewrite Hc. }
  unfold LLM.parseResponse. rewrite Hclean. split.
  - destruct (truthy_value (List.find (LLM.exact_match EmptyString)
                              (c :: rest))) as [name|] eqn:He.
    + exists name. split; [reflexivity|].
      apply truthy_value_some in He as [He _].
      now apply List.find_some in He as [Hin _].
    + rewrite Hpartial. exists c. split; [reflexivity | now left].
  - intros Hnone.
    assert (List.find (LLM.exact_match EmptyString) (c :: rest) = None)
      as ->.
    { destruct (List.find (LLM.exact_match EmptyString) (c :: rest))
        as [x|] eqn:Hf; [|reflexivity].
      apply List.find_some in Hf as [Hin Hx]. unfold LLM.exact_match in Hx.
      apply String.eqb_eq in Hx. rewrite Hlow in Hx.
      now apply Hnone in Hin. }
    simpl truthy_value at 1. rewrite Hpartial. split; reflexivity.
Qed.

End ParserFurther.

Lemma partial_match_is_containment_witness :
  includes "dining out" "ning" = true.
Proof.
  destruct (partial_match_is_containment "x" "y") as (Hinc & _).
  apply Hinc. exists "di", " out". reflexivity.
Defined.

Lemma parseResponse_ignores_case_witness :
  LLMResponse.category
    (LLM.parseResponse "DINING" ["Groceries"; "Dining"]) =
  LLMResponse.category
    (LLM.parseResponse " 'dining' " ["Groceries"; "Dining"]).
Proof.
  apply (parseResponse_ignores_case "DINING" " 'dining' "
           ["Groceries"; "Dining"]).
  reflexivity.
Defined.

Lemma empty_reply_proposes_a_category_witness :
  LLMResponse.category
    (LLM.parseResponse "  " ["Groceries"; "Dining"]) = Some "Groceries" /\
  LLMResponse.confidence
    (LLM.parseResponse "  " ["Groceries"; "Dining"]) = medium.
Proof.
  destruct (empty_reply_proposes_a_category "  " "Groceries" ["Dining"])
    as (_ & Hfirst).
  - reflexivity.
  - reflexivity.
  - discriminate.
  - apply Hfirst. intros x [<- | [<- | []]]; discriminate.
Defined.

Section StripQuotes.

Lemma strip_trailing_quote_wrapped s q :
  is_quote q = true ->
  strip_trailing_quote (s ++ String q EmptyString) = s.
Proof.
  intros Hq. induction s as [|c s IH]; simpl.
  - now rewrite Hq.
  - rewrite IH. destruct s; reflexivity.
Qed.

Lemma strip_trailing_quote_plain s :
  (forall pre c post, s = (pre ++ String c post)%string ->
                      is_quote c = false) ->
  strip_trailing_quote s = s.
Proof.
  induction s as [|c s IH]; intros Hno; [reflexivity|].
  simpl. destruct s as [|c' s'].
  - now rewrite (Hno EmptyString c EmptyString eq_refl).
  - f_equal. apply IH. intros pre ch post Hs.
    apply (Hno (String c pre) ch post). simpl. now rewrite Hs.
Qed.

Lemma strip_trailing_quote_length s :
  (String.length (strip_trailing_quote s) <= String.length s
   /\ String.length s <= String.length (strip_trailing_quote s) + 1)%nat.
Proof.
  induction s as [|c s IH]; simpl; [lia|].
  destruct s as [|c' s'].
  - destruct (is_quote c); simpl; lia.
  - simpl String.length in *. lia.
Qed.

(** X25.  The cleaning of the reply removes quotes at the two ends only: a
    text wrapped in two quote characters is unwrapped to the text itself;
    a text in which no quote character occurs is left as it is; and never
    more than two characters are removed. *)
Theorem strip_quotes_unwraps s :
  (forall q q', is_quote q = true -> is_quote q' = true ->
     strip_quotes (String q (s ++ String q' EmptyString)) = s) /\
  ((forall pre c post, s = (pre ++ String c post)%string ->
                       is_quote c = false) ->
   strip_quotes s = s) /\
  (String.length (strip_quotes s) <= String.length s
   /\ String.length s <= String.length (strip_quotes s) + 2)%nat.
Proof.
  split; [|split].
  - intros q q' Hq Hq'. simpl. rewrite Hq.
    now apply strip_trailing_quote_wrapped.
  - intros Hno. destruct s as [|c s]; [reflexivity|].
    unfold strip_quotes.
    rewrite (Hno EmptyString c s eq_refl).
    now apply strip_trailing_quote_plain.
  - destruct s as [|c s]; [simpl; lia|]. unfold strip_quotes.
    destruct (is_quote c).
    + pose proof (strip_trailing_quote_length s). simpl String.length. lia.
    + pose proof (strip_trailing_quote_length (String c s)). lia.
Qed.

End StripQuotes.

Lemma strip_quotes_unwraps_witness :
  strip_quotes (String (ascii_of_nat 34) ("Dining" ++ dquote)) = "Dining" /\
  strip_quotes "Dining" = "Dining".
Proof.
  destruct (strip_quotes_unwraps "Dining") as (Hwrapped & Hplain & _).
  split.
  - apply Hwrapped; reflexivity.
  - apply Hplain. intros pre c post Hs.
    destruct pre as [|c1 [|c2 [|c3 [|c4 [|c5 [|c6 pre]]]]]];
      simpl in Hs; try discriminate Hs; injection Hs; intros; subst;
      try reflexivity.
    destruct pre; discriminate.
Defined.

(** ** The Firefly client *)

Section FireflyFurther.
Import Firefly.

(** X26.  The category listing is memoized: while less than the configured
    number of seconds has passed since the listing was stored,
    [getCategories] returns the stored list without calling the API and
    keeps its fields; after [invalidateCategoryCache] it calls the API, and
    what a successful call stored is what later calls within the time limit
    return, whatever the API would answer then; a call that fails throws
    and leaves the stored list and its time as they were. *)
Theorem categories_are_memoized ttl now response s :
  (forall cached,
     categoryCache s = Some cached ->
     now - categoryCacheTime s < ttl * 1000 ->
     getCategories ttl now response s =
       {| result := Ok cached; state := s; fetched := false |}) /\
  fetched (getCategories ttl now response (invalidateCategoryCache s)) = true
  /\
  (forall data later response',
     later - now < ttl * 1000 ->
     getCategories ttl later response'
       (state (getCategories ttl now (ListCategoryData data)
                 (invalidateCategoryCache s))) =
     {| result :=
          result (getCategories ttl now (ListCategoryData data)
                    (invalidateCategoryCache s));
        state :=
          state (getCategories ttl now (ListCategoryData data)
                   (invalidateCategoryCache s));
        fetched := false |}) /\
  (fetched (getCategories ttl now ListCategoryError s) = true ->
   result (getCategories ttl now ListCategoryError s) =
     Throw "Failed to fetch categories" /\
   state (getCategories ttl now ListCategoryError s) = s).
Proof.
  split; [|split; [|split]].
  - intros cached Hc Hfresh. unfold getCategories. rewrite Hc.
    apply Z.ltb_lt in Hfresh. now rewrite Hfresh.
  - unfold getCategories, fetch_categories. simpl.
    destruct response; reflexivity.
  - intros data later response' Hfresh. unfold getCategories at 1.
    simpl. apply Z.ltb_lt in Hfresh. now rewrite Hfresh.
  - unfold getCategories, fetch_categories.
    destruct (categoryCache s) as [cached|]; [|auto].
    destruct (_ <? _); simpl; [discriminate | auto].
Qed.

Lemma categories_are_memoized_witness :
  getCategories 300 2000 ListCategoryError
    {| categoryCache := Some sample_categories;
       categoryCacheTime := 1000 |} =
  {| result := Ok sample_categories;
     state := {| categoryCache := Some sample_categories;
                 categoryCacheTime := 1000 |};
     fetched := false |}.
Proof.
  destruct (categories_are_memoized 300 2000 ListCategoryError
              {| categoryCache := Some sample_categories;
                 categoryCacheTime := 1000 |}) as (Hmemo & _).
  apply Hmemo; [reflexivity | simpl; lia].
Defined.

Lemma push_transactions_app g1 g2 :
  push_transactions (g1 ++ g2) =
  push_transactions g1 ++ push_transactions g2.
Proof.
  induction g1 as [|g g1 IH]; simpl; [reflexivity|].
  destruct (to_transaction g); simpl; now rewrite IH.
Qed.

(** X27.  The history read from a search answer has exactly one
    transaction for each group that has a split, in the order of the
    groups: a group without a split gives none, and a group with splits
    gives its id with the fields of its first split (a missing description,
    destination or date read as the empty text, a missing amount as 0); the
    other splits are not read. *)
Theorem only_first_splits_are_read groups :
  getRecentTransactionsByMerchant (SearchTransactionsData (Some groups)) =
    Ok (push_transactions groups) /\
  List.length (push_transactions groups) =
    List.length
      (List.filter
         (fun g => match group_transactions g with
                   | Some (_ :: _) => true
                   | _ => false
                   end) groups) /\
  (forall g tx rest,
     In g groups -> group_transactions g = Some (tx :: rest) ->
     In (TransactionInfo.mk (group_id g)
           (or_default (split_description tx) EmptyString)
           (or_default (split_destination_name tx) EmptyString)
           (split_category_id tx) (split_category_name tx)
           (or_default (split_amount tx) "0")
           (or_default (split_date tx) EmptyString))
        (push_transactions groups)) /\
  (forall t, In t (push_transactions groups) ->
     exists g tx rest,
       In g groups /\ group_transactions g = Some (tx :: rest) /\
       TransactionInfo.id t = group_id g /\
       TransactionInfo.categoryId t = split_category_id tx /\
       TransactionInfo.categoryName t = split_category_name tx) /\
  (forall before after,
     groups = before ++ after ->
     push_transactions groups =
       push_transactions before ++ push_transactions after) /\
  (forall before i tx rest rest' after,
     groups =
       before ++ {| group_id := i; group_transactions := Some (tx :: rest) |}
       :: after ->
     push_transactions groups =
     push_transactions
       (before ++ {| group_id := i; group_transactions := Some (tx :: rest') |}
        :: after)).
Proof.
  split; [reflexivity|]. split; [|split; [|split; [|split]]].
  - induction groups as [|g gs IH]; [reflexivity|].
    simpl. unfold to_transaction.
    destruct (group_transactions g) as [[|tx rest]|]; simpl;
      now rewrite IH.
  - induction groups as [|g gs IH]; simpl; [contradiction|].
    intros g0 tx rest [-> | Hin] Hg.
    + unfold to_transaction. rewrite Hg. now left.
    + destruct (to_transaction g); [right|]; now apply (IH g0 tx rest).
  - induction groups as [|g gs IH]; simpl; [contradiction|].
    intros t Hin.
    destruct (to_transaction g) as [t0|] eqn:Ht.
    + destruct Hin as [<- | Hin].
      * unfold to_transaction in Ht.
        destruct (group_transactions g) as [[|tx rest]|] eqn:Hg;
          try discriminate.
        injection Ht as <-. exists g, tx, rest. simpl. auto.
      * destruct (IH t Hin) as (g' & tx & rest & Hg' & Hrest).
        exists g', tx, rest. auto.
    + destruct (IH t Hin) as (g' & tx & rest & Hg' & Hrest).
      exists g', tx, rest. auto.
  - intros before after ->. apply push_transactions_app.
  - intros before i tx rest rest' after ->.
    rewrite !push_transactions_app. reflexivity.
Qed.

Lemma only_first_splits_are_read_witness :
  In (TransactionInfo.mk "g1" EmptyString EmptyString (Some "2")
        (Some "Dining") "0" EmptyString)
     (push_transactions
        ([] ++ {| group_id := "g1";
                  group_transactions :=
                    Some [Build_ApiSplit None None (Some "2") (Some "Dining")
                            None None;
                          Build_ApiSplit None None (Some "1")
                            (Some "Groceries") None None] |} :: [])) /\
  push_transactions
    ([] ++ {| group_id := "g1";
              group_transactions :=
                Some [Build_ApiSplit None None (Some "2") (Some "Dining")
                        None None;
                      Build_ApiSplit None None (Some "1") (Some "Groceries")
                        None None] |} :: []) =
  push_transactions
    ([] ++ {| group_id := "g1";
              group_transactions :=
                Some [Build_ApiSplit None None (Some "2") (Some "Dining")
                        None None] |} :: []).
Proof.
  destruct (only_first_splits_are_read
              ([] ++ {| group_id := "g1";
                        group_transactions :=
                          Some [Build_ApiSplit None None (Some "2")
                                  (Some "Dining") None None;
                                Build_ApiSplit None None (Some "1")
                                  (Some "Groceries") None None] |} :: []))
    as (_ & _ & Hyields & _ & _ & Hfirst).
  split.
  - apply (Hyields
             {| group_id := "g1";
                group_transactions :=
                  Some [Build_ApiSplit None None (Some "2") (Some "Dining")
                          None None;
                        Build_ApiSplit None None (Some "1") (Some "Groceries")
                          None None] |}
             (Build_ApiSplit None None (Some "2") (Some "Dining") None None)
             [Build_ApiSplit None None (Some "1") (Some "Groceries")
                None None]).
    + left. reflexivity.
    + reflexivity.
  - apply (Hfirst [] "g1"
             (Build_ApiSplit None None (Some "2") (Some "Dining") None None)
             [Build_ApiSplit None None (Some "1") (Some "Groceries") None None]
             [] []).
    reflexivity.
Defined.

End FireflyFurther.

(** ** The merchant search *)

Section SearchFurther.
Import SearXNG.

Lemma length_append_string a b :
  String.length (a ++ b)%string = (String.length a + String.length b)%nat.
Proof. induction a as [|c a IH]; simpl; [reflexivity | now rewrite IH]. Qed.

Lemma substring0_length n s :
  String.length (String.substring 0 n s) = Nat.min n (String.length s).
Proof.
  revert s. induction n as [|n IH]; intros s.
  - destruct s; reflexivity.
  - destruct s as [|c s]; simpl; [reflexivity | now rewrite IH].
Qed.

Lemma join_length_lower sep (lines : list string) :
  lines <> [] ->
  (forall l, In l lines -> (2 <= String.length l)%nat) ->
  (2 <= String.length (join sep lines))%nat.
Proof.
  destruct lines as [|l rest]; [contradiction|]. intros _ Hlen.
  assert (2 <= String.length l)%nat as Hl by (apply Hlen; now left).
  destruct rest as [|l' rest]; [exact Hl|].
  change (join sep (l :: l' :: rest))
    with (l ++ sep ++ join sep (l' :: rest))%string.
  rewrite length_append_string. lia.
Qed.

(** X28.  [searchMerchant] sends no request when no search URL is
    configured; it returns nothing or a text of at least 2 and at most 500
    characters, so never the empty text; and only the first three results
    of an answer are read. *)
Theorem merchant_context_is_bounded searxng_url outcome :
  searchMerchant None outcome = (None, false) /\
  (forall summary,
     fst (searchMerchant searxng_url outcome) = Some summary ->
     (2 <= String.length summary <= 500)%nat) /\
  (forall results,
     searchMerchant searxng_url (FetchJson (Some results)) =
     searchMerchant searxng_url
       (FetchJson (Some (List.firstn 3 results)))).
Proof.
  split; [reflexivity|]. split.
  - intros summary. unfold searchMerchant.
    destruct searxng_url as [u|]; [|discriminate].
    destruct outcome as [|st|data]; try discriminate.
    set (results := match data with
                    | Some l => List.firstn 3 l
                    | None => []
                    end).
    destruct (Z.of_nat (List.length results) =? 0) eqn:E; [discriminate|].
    simpl. intros [= <-]. rewrite substring0_length.
    assert (2 <= String.length
                   (join newline
                      (List.map (fun r => (title r ++ ": " ++ content r)%string)
                         results)))%nat as Hlow.
    { apply join_length_lower.
      - destruct results; [discriminate E | discriminate].
      - intros l Hin. apply List.in_map_iff in Hin as (r & <- & _).
        rewrite !length_append_string. simpl. lia. }
    lia.
  - intros results. unfold searchMerchant.
    destruct searxng_url as [u|]; [|reflexivity].
    assert (List.firstn 3 (List.firstn 3 results) = List.firstn 3 results)
      as ->; [|reflexivity].
    destruct results as [|r1 [|r2 [|r3 rest]]]; reflexivity.
Qed.

Lemma merchant_context_is_bounded_witness :
  (2 <= String.length "Cafe Luna: a coffee shop" <= 500)%nat.
Proof.
  destruct (merchant_context_is_bounded (Some "http://search")
              (FetchJson
                 (Some [{| title := "Cafe Luna"; content := "a coffee shop";
                           url := "http://luna" |}])))
    as (_ & Hbound & _).
  apply Hbound. reflexivity.
Defined.

End SearchFurther.

(** ** The webhook handler *)

Section WebhookFurther.
Import Webhook.

Lemma differs_false x s : differs x s = false <-> x = Some s.
Proof.
  unfold differs. destruct x as [v|]; [|split; discriminate].
  rewrite negb_false_iff, String.eqb_eq. split; congruence.
Qed.

Lemma truthy_true s : truthy s = true <-> s <> EmptyString.
Proof.
  unfold truthy. rewrite negb_true_iff. apply String.eqb_neq.
Qed.

Lemma validatePayload_valid payload :
  validatePayload payload = valid <->
  exists contentId tx, well_formed payload contentId tx.
Proof.
  unfold validatePayload, well_formed. split.
  - destruct (differs _ "STORE_TRANSACTION") eqn:E1; [discriminate|].
    destruct (differs _ "TRANSACTIONS") eqn:E2; [discriminate|].
    apply differs_false in E1, E2.
    destruct payload as [p|]; [|discriminate].
    destruct (content p) as [c|] eqn:Hc; [|discriminate].
    destruct (truthy_opt (id c)) eqn:E3; [|discriminate]. simpl.
    destruct (id c) as [i|] eqn:Hi; [|discriminate].
    simpl in E3. apply truthy_true in E3.
    destruct (transactions c) as [[|tx rest]|] eqn:Ht; try discriminate.
    destruct (String.eqb (type tx) "withdrawal") eqn:E4; [|discriminate].
    simpl. apply String.eqb_eq in E4.
    destruct (category_id tx) eqn:E5; [discriminate|].
    destruct (truthy (destination_name tx)) eqn:E6; [|discriminate].
    apply truthy_true in E6. intros _.
    exists i, tx, p, c, rest. repeat split; auto.
  - intros (i & tx & p & c & rest & -> & Ht & Hr & Hc & Hi & Hne & Htx & Hty
            & Hcat & Hdest).
    rewrite Ht, Hr, Hc, Hi, Htx, Hty, Hcat. simpl.
    apply truthy_true in Hne, Hdest. now rewrite Hne, Hdest.
Qed.

(** X29.  [validatePayload] accepts exactly the payloads whose trigger is
    [STORE_TRANSACTION], whose response is [TRANSACTIONS], whose content has
    a non-empty id and at least one transaction, the first of which is a
    withdrawal without category and with a non-empty destination name; the
    transactions after the first are not looked at. *)
Theorem validatePayload_accepts_uncategorized_withdrawals payload :
  (validatePayload payload = valid <->
   exists p c contentId tx rest,
     payload = Some p /\
     trigger p = Some "STORE_TRANSACTION" /\
     response p = Some "TRANSACTIONS" /\
     content p = Some c /\
     id c = Some contentId /\ contentId <> EmptyString /\
     transactions c = Some (tx :: rest) /\
     type tx = "withdrawal" /\
     category_id tx = None /\
     destination_name tx <> EmptyString) /\
  (forall p c tx rest rest',
     payload = Some p -> content p = Some c ->
     transactions c = Some (tx :: rest) ->
     validatePayload payload =
     validatePayload
       (Some {| trigger := trigger p; response := response p;
                content := Some {| id := id c;
                                   transactions := Some (tx :: rest') |} |})).
Proof.
  split.
  - rewrite validatePayload_valid. unfold well_formed. split.
    + intros (i & tx & p & c & rest & Hw). exists p, c, i, tx, rest. exact Hw.
    + intros (p & c & i & tx & rest & Hw). exists i, tx, p, c, rest. exact Hw.
  - intros p c tx rest rest' -> Hc Ht. unfold validatePayload. simpl.
    rewrite Hc, Ht. reflexivity.
Qed.


End WebhookFurther.

Lemma validatePayload_accepts_uncategorized_withdrawals_witness :
  Webhook.validatePayload
    (Some {| Webhook.trigger := Some "STORE_TRANSACTION";
             Webhook.response := Some "TRANSACTIONS";
             Webhook.content :=
               Some {| Webhook.id := Some "41";
                       Webhook.transactions :=
                         Some [Webhook.Build_Transaction "7" "withdrawal"
                                 (Some "latte") "Cafe" None None
                                 (Some "4.50") (Some [])] |} |})
  = Webhook.valid.
Proof.
  destruct (validatePayload_accepts_uncategorized_withdrawals
              (Some {| Webhook.trigger := Some "STORE_TRANSACTION";
                       Webhook.response := Some "TRANSACTIONS";
                       Webhook.content :=
                         Some {| Webhook.id := Some "41";
                                 Webhook.transactions :=
                                   Some [Webhook.Build_Transaction "7"
                                           "withdrawal" (Some "latte") "Cafe"
                                           None None (Some "4.50")
                                           (Some [])] |} |}))
    as (Hvalid & _).
  apply Hvalid. do 5 eexists.
  repeat split; try reflexivity; discriminate.
Defined.

